(** * The batched, concurrency-limited, resumable labelling pipeline

    A shallow embedding of [labeling_optimized.py]: the batch partition of
    [main_async], the annotation client ([call_api] under its tenacity
    decorator, [label_batch_async]), the per-batch task [handle_batch] with
    its semaphore and lock, the checkpoint helpers and the controller
    [main_async].

    Python values are embedded as follows.  Integers are [Z] or, for
    lengths, indices and counters that are never negative, [nat]; a list is
    a [list]; a dict produced by [json.loads] is an association list in
    insertion order; a [set] of batch indices is a [gset nat]; [None] is
    [JNull].  An exception is a value of [exn] carried by [result].

    pandas and pyarrow are not part of the sources.  Whether they build and
    write a given table is a parameter of the embedding, the class
    [Pandas]: every statement below holds whatever they do. *)

From Stdlib Require Import ZArith QArith Qround Lia.
From Equations Require Import Equations.
From stdpp Require Import gmap list strings sorting.

Close Scope Q_scope.
Set Warnings "-register-all,-clear-no-such-hyp".
#[local] Obligation Tactic := idtac.

(** ** Python values *)

(** What [json.loads] returns.  Numbers are the integers: float literals
    are outside the embedding. *)
Inductive json : Type :=
| JNull
| JBool (b : bool)
| JNum (z : Z)
| JStr (s : string)
| JArr (l : list json)
| JObj (m : list (string * json)).

(** The exceptions that occur in the modelled code. *)
Inductive exn : Type :=
| RateLimitError
| APITimeoutError
| APIConnectionError
| APIError            (* any other error of the service client *)
| RetryError          (* tenacity: attempts exhausted *)
| JSONDecodeError
| ValueError
| AttributeError
| TypeError
| KeyError
| OSError
| ZeroDivisionError
| CancelledError.     (* asyncio: the task was cancelled; not an [Exception] *)

Inductive result (A : Type) : Type :=
| Ok (a : A)
| Err (e : exn).
Arguments Ok {A} a.
Arguments Err {A} e.

Definition bind {A B} (r : result A) (k : A → result B) : result B :=
  match r with
  | Ok a => k a
  | Err e => Err e
  end.

Notation "x ←! r ; k" := (bind r (λ x, k))
  (at level 20, r at level 100, k at level 200, right associativity,
   format "x  ←!  r ;  '/' k").

Fixpoint traverse {A B} (f : A → result B) (l : list A) : result (list B) :=
  match l with
  | [] => Ok []
  | x :: l' => y ←! f x; ys ←! traverse f l'; Ok (y :: ys)
  end.

(** Association-list dictionaries: [d.get(k)] on the entries of a dict. *)
Fixpoint assoc (k : string) (m : list (string * json)) : option json :=
  match m with
  | [] => None
  | (k', v) :: m' => if String.eqb k k' then Some v else assoc k m'
  end.

Definition remove_key (k : string) (m : list (string * json)) : list (string * json) :=
  filter (λ kv, kv.1 ≠ k) m.

Definition int_of_bool (b : bool) : Z := if b then 1%Z else 0%Z.

(** Python's [==] on decoded JSON.  [True == 1]; dicts compare as
    unordered maps. *)
Fixpoint py_eq (a b : json) : bool :=
  match a, b with
  | JNull, JNull => true
  | JBool x, JBool y => (int_of_bool x =? int_of_bool y)%Z
  | JBool x, JNum y => (int_of_bool x =? y)%Z
  | JNum x, JBool y => (x =? int_of_bool y)%Z
  | JNum x, JNum y => (x =? y)%Z
  | JStr s, JStr t => String.eqb s t
  | JArr xs, JArr ys =>
      (fix go (xs ys : list json) : bool :=
         match xs, ys with
         | [], [] => true
         | x :: xs', y :: ys' => py_eq x y && go xs' ys'
         | _, _ => false
         end) xs ys
  | JObj m, JObj m' =>
      (length m =? length m')%nat &&
      (fix go (m : list (string * json)) : bool :=
         match m with
         | [] => true
         | (k, v) :: r =>
             match assoc k m' with
             | Some v' => py_eq v v' && go r
             | None => false
             end
         end) m
  | _, _ => false
  end.

(** Python's [<] on decoded JSON; [None] is a [TypeError].  Strings are
    compared by code point, that is bytewise on their UTF-8 encoding; lists
    lexicographically. *)
Fixpoint py_lt (a b : json) : option bool :=
  match a, b with
  | JBool x, JBool y => Some (int_of_bool x <? int_of_bool y)%Z
  | JBool x, JNum y => Some (int_of_bool x <? y)%Z
  | JNum x, JBool y => Some (x <? int_of_bool y)%Z
  | JNum x, JNum y => Some (x <? y)%Z
  | JStr s, JStr t => Some (String.ltb s t)
  | JArr xs, JArr ys =>
      (fix go (xs ys : list json) : option bool :=
         match xs, ys with
         | [], [] => Some false
         | [], _ :: _ => Some true
         | _ :: _, [] => Some false
         | x :: xs', y :: ys' => if py_eq x y then go xs' ys' else py_lt x y
         end) xs ys
  | _, _ => None
  end.

(** [sorted(l, key=...)] on a list already paired with its keys: a stable
    sort that only asks [<].  [x] goes in front of the first element that is
    not smaller than it, so equal keys keep their input order.  On keys that
    [<] orders totally this is the list CPython returns; a [TypeError] of
    [<] is passed on. *)
Fixpoint insert_sorted {A} (k : json) (x : A) (l : list (json * A))
  : result (list (json * A)) :=
  match l with
  | [] => Ok [(k, x)]
  | (k', y) :: l' =>
      match py_lt k' k with
      | None => Err TypeError
      | Some true => r ←! insert_sorted k x l'; Ok ((k', y) :: r)
      | Some false => Ok ((k, x) :: (k', y) :: l')
      end
  end.

Fixpoint sorted_keyed {A} (l : list (json * A)) : result (list (json * A)) :=
  match l with
  | [] => Ok []
  | (k, x) :: l' => r ←! sorted_keyed l'; insert_sorted k x r
  end.

(** [sorted(l, key=key)]: the keys are computed for every element first. *)
Definition sorted {A} (key : A → result json) (l : list A) : result (list A) :=
  keyed ←! traverse (λ x, k ←! key x; Ok (k, x)) l;
  r ←! sorted_keyed keyed;
  Ok (r.*2).

(** [l[start:end]] and [l[start:end] = v] for [0 <= start], [0 <= end]. *)
Definition slice {A} (start end_ : nat) (l : list A) : list A :=
  take (end_ - start) (drop start l).

Definition slice_assign {A} (start end_ : nat) (v l : list A) : list A :=
  take start l ++ v ++ drop (start `max` end_) l.

(** ** Configuration *)

Definition CHECKPOINT_INTERVAL : nat := 5.

(** ** Batch partition ([main_async], [handle_batch]) *)

(** [a / b] on integers is true division.  The quotient is kept exact:
    below 2^53 records the float Python computes has the same ceiling. *)
Definition true_div (a b : Z) : result Q :=
  if (b =? 0)%Z then Err ZeroDivisionError else Ok (inject_Z a / inject_Z b)%Q.

Definition math_ceil (q : Q) : Z := Qceiling q.

(** [num_batches = math.ceil(n / BATCH_SIZE)] *)
Definition num_batches (n BATCH_SIZE : nat) : result nat :=
  q ←! true_div (Z.of_nat n) (Z.of_nat BATCH_SIZE);
  Ok (Z.to_nat (math_ceil q)).

(** [start] and [end] of [handle_batch]. *)
Definition batch_start (BATCH_SIZE batch_idx : nat) : nat :=
  batch_idx * BATCH_SIZE.

Definition batch_end (BATCH_SIZE n batch_idx : nat) : nat :=
  ((batch_idx + 1) * BATCH_SIZE) `min` n.

Definition batch_texts (BATCH_SIZE : nat) (texts : list string) (batch_idx : nat)
  : list string :=
  slice (batch_start BATCH_SIZE batch_idx)
        (batch_end BATCH_SIZE (length texts) batch_idx) texts.

(** ** Annotation client ([call_api], [label_batch_async]) *)

#[global] Instance exn_eq_dec : EqDecision exn.
Proof. solve_decision. Defined.

(** The text of one chat completion, as far as the client looks at it:
    [resp.choices[0].message.content], stripped and freed of a Markdown
    fence, then given to [json.loads]. *)
Inductive completion : Type :=
| NoText                       (* [content] is [None]: [.strip()] raises *)
| Text (parsed : option json). (* [json.loads]: [None] when it raises *)

(** One request is one call of [client.chat.completions.create], whatever
    the client library does inside it; it either raises or returns a
    completion. *)
Definition reply : Type := result completion.

(** The annotation service.  [service payload k] is what the [k]-th request
    (counted from 1) for the batch with this payload brings. *)
Definition service_t : Type := list (nat * string) → nat → reply.

(** *** tenacity *)

Definition retry_if_exception_type (types : list exn) (e : exn) : bool :=
  bool_decide (e ∈ types).

(** [wait_exponential(multiplier, min, max)] at exponent base 2:
    [max(max(0, min), min(multiplier * 2 ** (attempt_number - 1), max))]. *)
Definition wait_exponential (multiplier min_ max_ attempt_number : nat) : nat :=
  (0 `max` min_) `max` ((multiplier * 2 ^ (attempt_number - 1)) `min` max_).

Definition stop_after_attempt (max_attempt_number attempt_number : nat) : bool :=
  bool_decide (max_attempt_number ≤ attempt_number).

(** What a decorated call did: its outcome, the number of requests it made
    and the delays it slept between them, oldest first. *)
Record call_trace : Type := CallTrace {
  outcome : reply;
  requests : nat;
  sleeps : list nat;
}.

Definition inspect {A} (a : A) : {b : A | a = b} := exist _ a eq_refl.

(** The loop of [@retry(retry=..., wait=..., stop=stop_after_attempt(m))]
    around [fn], entered at [attempt_number].  An exception the predicate
    rejects is re-raised as it is; when [stop] says so the loop raises
    [RetryError]; otherwise it sleeps and calls [fn] again. *)
Equations retrying (retry : exn → bool) (wait : nat → nat) (max_attempt_number : nat)
    (fn : nat → reply) (attempt_number : nat) : call_trace
  by wf (max_attempt_number - attempt_number) lt :=
retrying retry wait m fn k with fn k => {
  | Ok resp => CallTrace (Ok resp) 1 []
  | Err e with retry e => {
    | false => CallTrace (Err e) 1 []
    | true with inspect (stop_after_attempt m k) => {
      | exist _ true _ => CallTrace (Err RetryError) 1 []
      | exist _ false Hgo =>
          let t := retrying retry wait m fn (S k) in
          CallTrace (outcome t) (S (requests t)) (wait k :: sleeps t) } } }.
Next Obligation.
  intros _ _ m _ k Hgo _. simpl in Hgo.
  apply bool_decide_eq_false in Hgo. lia.
Qed.

Definition transient_errors : list exn :=
  [RateLimitError; APITimeoutError; APIConnectionError].

(** [call_api], seen from the task that awaits it: the decorated function
    called on the requests of one batch. *)
Definition call_api (fn : nat → reply) : call_trace :=
  retrying (retry_if_exception_type transient_errors)
           (wait_exponential 1 2 60) 5 fn 1.

(** *** label_batch_async *)

(** [[{"id": i, "text": str(t)} for i, t in enumerate(texts)]] *)
Definition reviews_payload (texts : list string) : list (nat * string) :=
  imap (λ i t, (i, t)) texts.

(** [d.get("id", 0)] *)
Definition get_id (d : json) : result json :=
  match d with
  | JObj m => Ok (default (JNum 0) (assoc "id" m))
  | _ => Err AttributeError
  end.

(** [d.pop("id", None)], returning the dict it leaves. *)
Definition pop_id (d : json) : result json :=
  match d with
  | JObj m => Ok (JObj (remove_key "id" m))
  | _ => Err AttributeError
  end.

(** The [try] block after [call_api] has returned. *)
Definition read_labels (n_texts : nat) (resp : completion) : result (list json) :=
  match resp with
  | NoText => Err AttributeError
  | Text None => Err JSONDecodeError
  | Text (Some (JArr data_list)) =>
      if bool_decide (length data_list ≠ n_texts) then Err ValueError
      else
        data_list ←! sorted get_id data_list;
        traverse pop_id data_list
  | Text (Some _) => Err ValueError
  end.

(** The whole [try] statement: both handlers return [[None] * len(texts)]. *)
Definition labels_of (n_texts : nat) (r : reply) : list json :=
  match resp ←! r; read_labels n_texts resp with
  | Ok data_list => data_list
  | Err JSONDecodeError => replicate n_texts JNull
  | Err _ => replicate n_texts JNull
  end.

Definition label_batch_async (service : service_t) (texts : list string)
  : list json * call_trace :=
  let t := call_api (service (reviews_payload texts)) in
  (labels_of (length texts) (outcome t), t).

(** ** Checkpoint helpers *)

(** A table as pandas holds it: its columns, each with its cells. *)
Definition dataframe : Type := list (string * list string).

(** The calls into pandas that can raise on the labels.  Each returns or
    raises, depending on the rows it is given: [pd.DataFrame(rows)] with the
    [pd.concat] beside the records, and the two writers on the table so
    obtained.  A writer converts the table before it opens its file, so
    that a call that raises has written nothing. *)
Class Pandas : Type := {
  pd_DataFrame : list json → result unit;
  to_parquet : dataframe → list json → result unit;
  to_csv : dataframe → list json → result unit;
}.

(** [df[col].astype(str).tolist()], when [col in df.columns]. *)
Fixpoint df_column (col : string) (df : dataframe) : option (list string) :=
  match df with
  | [] => None
  | (c, cells) :: df' => if String.eqb col c then Some cells else df_column col df'
  end.

(** The checkpoint path on disk.  A readable file is represented by what
    [json.load] makes of it. *)
Inductive file_state : Type :=
| FileAbsent
| FileUnreadable               (* [open] raises *)
| FileText (doc : option json). (* [None]: [json.load] raises *)

(** [checkpoint_path.exists()] *)
Definition file_exists (f : file_state) : bool :=
  match f with FileAbsent => false | _ => true end.

(** [obj[key]] for a string key. *)
Definition py_getitem (obj : json) (key : string) : result json :=
  match obj with
  | JObj m => match assoc key m with Some v => Ok v | None => Err KeyError end
  | _ => Err TypeError
  end.

(** [v + 1] *)
Definition py_succ (v : json) : result json :=
  match v with
  | JNum z => Ok (JNum (z + 1))
  | JBool b => Ok (JNum (int_of_bool b + 1))
  | _ => Err TypeError
  end.

(** The [try] block of [load_checkpoint]; its message evaluates
    [checkpoint['last_batch']+1]. *)
Definition read_checkpoint (f : file_state) : result json :=
  match f with
  | FileAbsent | FileUnreadable => Err OSError
  | FileText None => Err JSONDecodeError
  | FileText (Some checkpoint) =>
      last_batch ←! py_getitem checkpoint "last_batch";
      _ ←! py_succ last_batch;
      Ok checkpoint
  end.

Definition load_checkpoint (checkpoint_path : file_state) : option json :=
  if file_exists checkpoint_path then
    match read_checkpoint checkpoint_path with
    | Ok checkpoint => Some checkpoint
    | Err _ => None      (* [except Exception] *)
    end
  else None.

(** The file [save_checkpoint] leaves.  [list(completed_batches)] is
    written in the order of [elements]; the order Python gives the list
    does not matter, [main_async] reads it back through [set]. *)
Definition save_checkpoint (timestamp : string) (last_batch : nat)
    (all_labels : list json) (completed_batches : gset nat) : file_state :=
  FileText (Some (JObj [
    ("last_batch", JNum (Z.of_nat last_batch));
    ("labels", JArr all_labels);
    ("completed_batches", JArr ((λ b, JNum (Z.of_nat b)) <$> elements completed_batches));
    ("timestamp", JStr timestamp)])).

Definition is_none (label : json) : bool :=
  match label with JNull => true | _ => false end.

(** Python truth of a decoded JSON value. *)
Definition truthy (v : json) : bool :=
  match v with
  | JNull => false
  | JBool b => b
  | JNum z => negb (z =? 0)%Z
  | JStr s => negb (String.eqb s "")
  | JArr l => negb (bool_decide (l = []))
  | JObj m => negb (bool_decide (m = []))
  end.

(** [save_intermediate], returning the intermediate file it leaves: the
    function returns at once while every label is [None]; else it hands
    pandas the labels, a false label replaced by [{}], and the file holds
    the records beside these rows once [to_parquet] has returned. *)
Definition save_intermediate {pandas : Pandas} (df : dataframe) (all_labels : list json)
    (intermediate_path : option (dataframe * list json))
  : result (option (dataframe * list json)) :=
  if forallb is_none all_labels then Ok intermediate_path
  else
    let rows := (λ label, if truthy label then label else JObj []) <$> all_labels in
    _ ←! pd_DataFrame rows;
    _ ←! to_parquet df rows;
    Ok (Some (df, rows)).

(** The intermediate file after the call, whether it returned or raised. *)
Definition intermediate_after {pandas : Pandas} (df : dataframe) (all_labels : list json)
    (intermediate_path : option (dataframe * list json))
  : option (dataframe * list json) :=
  match save_intermediate df all_labels intermediate_path with
  | Ok file => file
  | Err _ => intermediate_path
  end.

Definition cleanup_checkpoint (checkpoint_path : file_state) : file_state :=
  if file_exists checkpoint_path then FileAbsent   (* [unlink] *)
  else checkpoint_path.

(** [max(completed_batches) if completed_batches else 0] *)
Definition max_completed (completed_batches : gset nat) : nat :=
  foldr Nat.max 0 (elements completed_batches).

(** ** The state [handle_batch] shares *)

Record state : Type := State {
  all_labels : list json;
  completed_batches : gset nat;
  processed_count : nat;
  checkpoint_file : file_state;
  intermediate_file : option (dataframe * list json);
  saves : nat;    (* checkpoints written so far: the reading of the clock *)
}.

Section Batches.

Context {pandas : Pandas}.
Variable BATCH_SIZE : nat.
Variable service : service_t.
Variable clock : nat → string.      (* [datetime.now().isoformat()] *)
Variable df : dataframe.
Variable texts : list string.

Definition labels_for (batch_idx : nat) : list json * call_trace :=
  label_batch_async service (batch_texts BATCH_SIZE texts batch_idx).

(** The four statements under [async with lock]. *)
Definition cs_write (batch_idx : nat) (labels : list json) (st : state) : state :=
  State (slice_assign (batch_start BATCH_SIZE batch_idx)
                      (batch_end BATCH_SIZE (length texts) batch_idx)
                      labels (all_labels st))
        (completed_batches st) (processed_count st)
        (checkpoint_file st) (intermediate_file st) (saves st).

Definition cs_add (batch_idx : nat) (st : state) : state :=
  State (all_labels st) ({[batch_idx]} ∪ completed_batches st)
        (processed_count st) (checkpoint_file st) (intermediate_file st) (saves st).

Definition cs_count (st : state) : state :=
  State (all_labels st) (completed_batches st) (S (processed_count st))
        (checkpoint_file st) (intermediate_file st) (saves st).

(** The periodic save: the checkpoint, then the intermediate file.  When
    [save_intermediate] raises, the checkpoint is written all the same; the
    exception leaves [handle_batch] and ends [gather] (see [main_async]). *)
Definition cs_save (batch_idx : nat) (st : state) : state :=
  if bool_decide (processed_count st `mod` CHECKPOINT_INTERVAL = 0) then
    State (all_labels st) (completed_batches st) (processed_count st)
          (save_checkpoint (clock (saves st)) batch_idx
                           (all_labels st) (completed_batches st))
          (intermediate_after df (all_labels st) (intermediate_file st))
          (S (saves st))
  else st.

Definition critical_section (batch_idx : nat) (labels : list json) (st : state)
  : state :=
  cs_save batch_idx (cs_count (cs_add batch_idx (cs_write batch_idx labels st))).

(** [handle_batch] run without interleaving: the annotation, then the
    critical section; what it does to the shared state, whether it returns
    or its periodic save raises. *)
Definition handle_batch (st : state) (batch_idx : nat) : state :=
  critical_section batch_idx (labels_for batch_idx).1 st.

End Batches.

(** ** The tasks of [handle_batch] under the event loop

    One task per pending batch.  A step is what one task does between two
    points at which the loop may run another task; the statements under
    [async with lock] are kept apart, so that their exclusion is the lock's
    doing and not an assumption about the loop. *)

Inductive cs_point : Type :=
| CsWrite    (* before [all_labels[start:end] = labels] *)
| CsAdd      (* before [completed_batches.add(batch_idx)] *)
| CsCount    (* before [processed_count += 1] *)
| CsSave.    (* before the periodic save *)

Inductive phase : Type :=
| AtGate (attempt_number : nat)      (* [call_api]: at [async with sem] *)
| InFlight (attempt_number : nat)    (* inside the gate, the request is out *)
| Backoff (attempt_number : nat)     (* tenacity sleeps after this attempt *)
| Parsing (r : reply)                (* [call_api] is over: rest of the [try] *)
| AtLock (labels : list json)        (* at [async with lock] *)
| Locked (pc : cs_point) (labels : list json)
| Finished.                          (* the task is over: returned or raised *)

Record config : Type := Config {
  sem : nat;                   (* [sem._value] *)
  lock : bool;                 (* [lock.locked()] *)
  shared : state;
  tasks : list (nat * phase);  (* batch index and where its task stands *)
}.

Definition in_flight (ph : phase) : bool :=
  match ph with InFlight _ => true | _ => false end.

Definition in_cs (ph : phase) : bool :=
  match ph with Locked _ _ => true | _ => false end.

Definition is_finished (ph : phase) : bool :=
  match ph with Finished => true | _ => false end.

(** The number of tasks whose phase satisfies [p]. *)
Definition count_phase (p : phase → bool) (ts : list (nat * phase)) : nat :=
  length (filter (λ t, p t.2 = true) ts).

Section Tasks.

Context {pandas : Pandas}.
Variable BATCH_SIZE : nat.
Variable MAX_CONCURRENCY : nat.
Variable service : service_t.
Variable clock : nat → string.
Variable df : dataframe.
Variable texts : list string.

(** The [k]-th request of batch [b]. *)
Definition request (b k : nat) : reply :=
  service (reviews_payload (batch_texts BATCH_SIZE texts b)) k.

Definition set_task (c : config) (i : nat) (b : nat) (ph : phase) : list (nat * phase) :=
  <[i := (b, ph)]> (tasks c).

Inductive step : config → config → Prop :=
(* [async with sem]: admitted when a permit is free *)
| step_acquire c i b k :
    tasks c !! i = Some (b, AtGate k) →
    0 < sem c →
    step c (Config (sem c - 1) (lock c) (shared c) (set_task c i b (InFlight k)))
(* the request returns; leaving the [with] block gives the permit back *)
| step_response c i b k resp :
    tasks c !! i = Some (b, InFlight k) →
    request b k = Ok resp →
    step c (Config (S (sem c)) (lock c) (shared c) (set_task c i b (Parsing (Ok resp))))
(* the request raises an error tenacity does not retry *)
| step_error c i b k e :
    tasks c !! i = Some (b, InFlight k) →
    request b k = Err e →
    retry_if_exception_type transient_errors e = false →
    step c (Config (S (sem c)) (lock c) (shared c) (set_task c i b (Parsing (Err e))))
(* a transient error at the last attempt *)
| step_exhausted c i b k e :
    tasks c !! i = Some (b, InFlight k) →
    request b k = Err e →
    retry_if_exception_type transient_errors e = true →
    stop_after_attempt 5 k = true →
    step c (Config (S (sem c)) (lock c) (shared c)
                   (set_task c i b (Parsing (Err RetryError))))
(* a transient error with attempts left: sleep outside the gate *)
| step_retry c i b k e :
    tasks c !! i = Some (b, InFlight k) →
    request b k = Err e →
    retry_if_exception_type transient_errors e = true →
    stop_after_attempt 5 k = false →
    step c (Config (S (sem c)) (lock c) (shared c) (set_task c i b (Backoff k)))
(* [wait_exponential 1 2 60 k] seconds later *)
| step_wake c i b k :
    tasks c !! i = Some (b, Backoff k) →
    step c (Config (sem c) (lock c) (shared c) (set_task c i b (AtGate (S k))))
(* validation and reconciliation, or a handler *)
| step_parse c i b r :
    tasks c !! i = Some (b, Parsing r) →
    step c (Config (sem c) (lock c) (shared c)
              (set_task c i b
                 (AtLock (labels_of (length (batch_texts BATCH_SIZE texts b)) r))))
(* [async with lock] *)
| step_lock c i b labels :
    tasks c !! i = Some (b, AtLock labels) →
    lock c = false →
    step c (Config (sem c) true (shared c) (set_task c i b (Locked CsWrite labels)))
| step_write c i b labels :
    tasks c !! i = Some (b, Locked CsWrite labels) →
    step c (Config (sem c) (lock c) (cs_write BATCH_SIZE texts b labels (shared c))
                   (set_task c i b (Locked CsAdd labels)))
| step_add c i b labels :
    tasks c !! i = Some (b, Locked CsAdd labels) →
    step c (Config (sem c) (lock c) (cs_add b (shared c))
                   (set_task c i b (Locked CsCount labels)))
| step_count c i b labels :
    tasks c !! i = Some (b, Locked CsCount labels) →
    step c (Config (sem c) (lock c) (cs_count (shared c))
                   (set_task c i b (Locked CsSave labels)))
(* the periodic save, at the end of which, or at whose exception, the lock
   is released; no task runs while a file is written, and what a kill
   leaves of a write is [killed_checkpoint] *)
| step_save c i b labels :
    tasks c !! i = Some (b, Locked CsSave labels) →
    step c (Config (sem c) false (cs_save clock df b (shared c))
                   (set_task c i b Finished)).

(** [tasks = [handle_batch(b) for b in pending_batches]] with a fresh
    semaphore and lock. *)
Definition start (st : state) (pending_batches : list nat) : config :=
  Config MAX_CONCURRENCY false st ((λ b, (b, AtGate 1)) <$> pending_batches).

Definition reachable (st : state) (pending_batches : list nat) (c : config) : Prop :=
  rtc step (start st pending_batches) c.

End Tasks.

(** ** The controller ([main_async]) *)

(** The paths of [get_paths] and what they hold.  pandas is the external
    reader and writer: a labelled table is the records beside the labels. *)
Record files : Type := Files {
  path_input : option dataframe;
  path_checkpoint : file_state;
  path_intermediate : option (dataframe * list json);
  path_output_parquet : option (dataframe * list json);
  path_output_csv : option (dataframe * list json);
}.

Inductive ending : Type :=
| Returned
| Exited (status : nat)   (* [sys.exit] *)
| Raised (e : exn)
| Unsupported.            (* a checkpoint the embedding does not cover *)

(** What ends [gather] early, if anything: a [KeyboardInterrupt] raised
    out of [gather]; the exception of a task, for which the one statement
    of [handle_batch] that can raise is the periodic save; or the
    cancellation of [main_async] itself, which is what [asyncio.run] does
    on an interrupt and what no handler of [main_async] catches. *)
Inductive stop_kind : Type :=
| KeyboardInterrupt
| Failure (e : exn)
| Cancelled.

Record run : Type := Run {
  status : ending;
  disk : files;
  requests_made : nat;   (* requests of the batches that completed *)
}.

(** The state a run starts from. *)
Inductive seeded : Type :=
| Seeded (all_labels : list json) (completed_batches : gset nat)
         (pending_batches : list nat)
| SeedRaises (e : exn)
| SeedUnsupported.

(** [set(checkpoint.get('completed_batches', []))], for a list of
    non-negative integers. *)
Definition batch_index (v : json) : option nat :=
  match v with
  | JNum z => if (0 <=? z)%Z then Some (Z.to_nat z) else None
  | _ => None
  end.

Definition completed_of (checkpoint : json) : option (gset nat) :=
  match checkpoint with
  | JObj m =>
      match default (JArr []) (assoc "completed_batches" m) with
      | JArr l => list_to_set <$> mapM batch_index l
      | _ => None
      end
  | _ => None
  end.

(** The [if checkpoint: ... else: ...] of [main_async].  Covered are the
    checkpoints whose [labels] entry is a list and whose
    [completed_batches] entry is a list of batch indices. *)
Definition seed (n num_batches : nat) (checkpoint : option json) : seeded :=
  let fresh := Seeded (replicate n JNull) ∅ (seq 0 num_batches) in
  match checkpoint with
  | Some checkpoint =>
      if truthy checkpoint then
        match py_getitem checkpoint "labels" with
        | Err e => SeedRaises e
        | Ok (JArr all_labels) =>
            match completed_of checkpoint with
            | Some completed_batches =>
                Seeded all_labels completed_batches
                       (filter (λ b, b ∉ completed_batches) (seq 0 num_batches))
            | None => SeedUnsupported
            end
        | Ok _ => SeedUnsupported
        end
      else fresh
  | None => fresh
  end.

Section Controller.

Context {pandas : Pandas}.
Variable BATCH_SIZE : nat.
Variable TEXT_COL : string.
Variable service : service_t.
Variable clock : nat → string.

(** The handlers of [KeyboardInterrupt] and [Exception] around [gather]:
    what they leave, and how they end. *)
Definition flush (df : dataframe) (st : state) : state :=
  State (all_labels st) (completed_batches st) (processed_count st)
        (save_checkpoint (clock (saves st)) (max_completed (completed_batches st))
                         (all_labels st) (completed_batches st))
        (intermediate_after df (all_labels st) (intermediate_file st))
        (S (saves st)).

Definition handler_ending (why : stop_kind) (df : dataframe) (st : state) : ending :=
  match why with
  | Cancelled => Raised CancelledError     (* no handler *)
  | KeyboardInterrupt | Failure _ =>
      match save_intermediate df (all_labels st) (intermediate_file st) with
      | Err e => Raised e                  (* raised inside the handler *)
      | Ok _ =>
          match why with
          | Failure e => Raised e          (* [raise] *)
          | _ => Returned                  (* [return] *)
          end
      end
  end.

(** The final save: [pd.DataFrame(all_labels)], [to_parquet], [to_csv], the
    summary with its [success_count/n*100], [cleanup_checkpoint] and the
    removal of the intermediate file, each reached when the one before has
    returned. *)
Definition final_save (fs : files) (df : dataframe) (n calls : nat) (st : state) : run :=
  let df_labeled := (df, all_labels st) in
  let kept parquet csv :=
    Files (path_input fs) (checkpoint_file st) (intermediate_file st) parquet csv in
  match pd_DataFrame (all_labels st) with
  | Err e => Run (Raised e) (kept (path_output_parquet fs) (path_output_csv fs)) calls
  | Ok _ =>
    match to_parquet df (all_labels st) with
    | Err e => Run (Raised e) (kept (path_output_parquet fs) (path_output_csv fs)) calls
    | Ok _ =>
      match to_csv df (all_labels st) with
      | Err e => Run (Raised e) (kept (Some df_labeled) (path_output_csv fs)) calls
      | Ok _ =>
        if bool_decide (n = 0) then
          Run (Raised ZeroDivisionError) (kept (Some df_labeled) (Some df_labeled)) calls
        else
          Run Returned
              (Files (path_input fs) (cleanup_checkpoint (checkpoint_file st)) None
                     (Some df_labeled) (Some df_labeled))
              calls
      end
    end
  end.

(** [main_async] on the files [fs].  [order] lists the batches in the
    order in which their tasks pass the critical section before [gather]
    ends; [stop] is what ends [gather] early, [None] when every task has
    returned. *)
Definition main_async (fs : files) (order : list nat) (stop : option stop_kind) : run :=
  match path_input fs with
  | None => Run (Exited 1) fs 0
  | Some df =>
    match df_column TEXT_COL df with
    | None => Run (Exited 1) fs 0
    | Some texts =>
      let n := length texts in
      match num_batches n BATCH_SIZE with
      | Err e => Run (Raised e) fs 0
      | Ok nb =>
        match seed n nb (load_checkpoint (path_checkpoint fs)) with
        | SeedRaises e => Run (Raised e) fs 0
        | SeedUnsupported => Run Unsupported fs 0
        | Seeded labels0 completed0 _ =>
          let st :=
            foldl (handle_batch BATCH_SIZE service clock df texts)
                  (State labels0 completed0 0
                         (path_checkpoint fs) (path_intermediate fs) 0)
                  order in
          let calls :=
            sum_list ((λ b, requests (labels_for BATCH_SIZE service texts b).2) <$> order) in
          match stop with
          | Some Cancelled =>
              Run (Raised CancelledError)
                  (Files (path_input fs) (checkpoint_file st) (intermediate_file st)
                         (path_output_parquet fs) (path_output_csv fs))
                  calls
          | Some why =>
              Run (handler_ending why df st)
                  (Files (path_input fs) (checkpoint_file (flush df st))
                         (intermediate_file (flush df st))
                         (path_output_parquet fs) (path_output_csv fs))
                  calls
          | None => final_save fs df n calls st
          end
        end
      end
    end
  end.

(** The shared state when [gather] is over, if [main_async] gets there:
    its [all_labels] is the table of the run. *)
Definition gathered (fs : files) (order : list nat) : option state :=
  df ← path_input fs;
  texts ← df_column TEXT_COL df;
  match num_batches (length texts) BATCH_SIZE with
  | Ok nb =>
      match seed (length texts) nb (load_checkpoint (path_checkpoint fs)) with
      | Seeded labels0 completed0 _ =>
          Some (foldl (handle_batch BATCH_SIZE service clock df texts)
                      (State labels0 completed0 0
                             (path_checkpoint fs) (path_intermediate fs) 0)
                      order)
      | _ => None
      end
  | Err _ => None
  end.

(** The pending batches [main_async] computes for [fs], if it gets there. *)
Definition pending_of (fs : files) : option (list nat) :=
  df ← path_input fs;
  texts ← df_column TEXT_COL df;
  match num_batches (length texts) BATCH_SIZE with
  | Ok nb =>
      match seed (length texts) nb (load_checkpoint (path_checkpoint fs)) with
      | Seeded _ _ pending_batches => Some pending_batches
      | _ => None
      end
  | Err _ => None
  end.

End Controller.

(** ** Invariants of the tasks *)

(** The batches whose task is over, in task order. *)
Definition finished_batches (ts : list (nat * phase)) : list nat :=
  (filter (λ t, is_finished t.2 = true) ts).*1.

Section Invariants.

Context {pandas : Pandas}.
Variable BATCH_SIZE : nat.
Variable service : service_t.
Variable clock : nat → string.
Variable df : dataframe.
Variable texts : list string.

(** What the statements already executed under the lock have done. *)
Definition cs_done (b : nat) (ph : phase) (st : state) : state :=
  match ph with
  | Locked CsWrite _ => st
  | Locked CsAdd labels => cs_write BATCH_SIZE texts b labels st
  | Locked CsCount labels => cs_add b (cs_write BATCH_SIZE texts b labels st)
  | Locked CsSave labels =>
      cs_count (cs_add b (cs_write BATCH_SIZE texts b labels st))
  | _ => st
  end.

(** A task carries the data of the sequential [label_batch_async]. *)
Definition task_ok (t : nat * phase) : Prop :=
  let fn := request BATCH_SIZE service texts t.1 in
  let loop := retrying (retry_if_exception_type transient_errors)
                       (wait_exponential 1 2 60) 5 fn in
  match t.2 with
  | AtGate k | InFlight k => outcome (loop k) = outcome (call_api fn)
  | Backoff k => outcome (loop (S k)) = outcome (call_api fn)
  | Parsing r => r = outcome (call_api fn)
  | AtLock labels | Locked _ labels =>
      labels = (labels_for BATCH_SIZE service texts t.1).1
  | Finished => True
  end.

(** Either the lock is free, no task is inside the critical section and
    the shared state is that of the completions [hist] run one after
    another; or one task holds the lock and the shared state is ahead by
    the statements that task has executed. *)
Definition owner_inv (st0 : state) (hist : list nat)
    (l : bool) (sh : state) (ts : list (nat * phase)) : Prop :=
  (l = false ∧ Forall (λ t, in_cs t.2 = false) ts ∧
   sh = foldl (handle_batch BATCH_SIZE service clock df texts) st0 hist)
  ∨
  (l = true ∧ ∃ i b ph,
     ts !! i = Some (b, ph) ∧ in_cs ph = true ∧
     (∀ j t, j ≠ i → ts !! j = Some t → in_cs t.2 = false) ∧
     sh = cs_done b ph (foldl (handle_batch BATCH_SIZE service clock df texts) st0 hist)).

Definition tasks_inv (st0 : state) (pending : list nat) (c : config) : Prop :=
  (tasks c).*1 = pending ∧
  Forall task_ok (tasks c) ∧
  ∃ hist, hist ≡ₚ finished_batches (tasks c) ∧
          owner_inv st0 hist (lock c) (shared c) (tasks c).

End Invariants.

(** ** Vocabulary of the statements *)

(** Keys that are integers, and the order of the sort on them. *)
Definition int_key {A} (kx : json * A) : Prop := ∃ z, kx.1 = JNum z.

Definition key_of {A} (kx : json * A) : Z :=
  match kx.1 with JNum z => z | _ => 0%Z end.

Definition key_le {A} (a b : json * A) : Prop := (key_of a ≤ key_of b)%Z.

(** An element of a response that is a dict echoing an integer id, a
    missing id counting as 0; and that integer. *)
Definition has_int_id (d : json) : Prop := ∃ z, get_id d = Ok (JNum z).

Definition id_value (d : json) : Z :=
  match get_id d with Ok (JNum z) => z | _ => 0%Z end.

(** A completion the client rejects for its form: no text, text that is
    not JSON, JSON that is not a list, or a list of the wrong length. *)
Definition malformed (n_texts : nat) (resp : completion) : bool :=
  match resp with
  | NoText => true
  | Text None => true
  | Text (Some (JArr data_list)) => bool_decide (length data_list ≠ n_texts)
  | Text (Some _) => true
  end.


(** ** A small run, for the examples *)

(** Three reviews in batches of two.  The service echoes the ids in
    reverse order and scores each text by its length; the first request of
    every batch meets a rate limit. *)
Definition demo_texts : list string := ["good soup"; "cold fries"; "rude waiter"].

Definition demo_df : dataframe :=
  [("review_id", ["r1"; "r2"; "r3"]); ("cleaned_text", demo_texts)].

Definition demo_annotation (item : nat * string) : json :=
  JObj [("id", JNum (Z.of_nat item.1));
        ("food_score", JNum (Z.of_nat (String.length item.2)))].

Definition demo_service : service_t :=
  λ payload attempt_number,
    match attempt_number with
    | 1 => Err RateLimitError
    | _ => Ok (Text (Some (JArr (demo_annotation <$> reverse payload))))
    end.

Definition demo_clock : nat → string := λ _, "2025-01-01T00:00:00".

(** A pandas that builds and writes whatever it is given.  The examples
    hand it tables whose rows are dicts of one shape, or all [None], or
    that have no row. *)
Definition lenient_pandas : Pandas :=
  {| pd_DataFrame := λ _, Ok ();
     to_parquet := λ _ _, Ok ();
     to_csv := λ _ _, Ok () |}.

(** A pandas whose [pd.DataFrame] raises on a dict followed, somewhere, by
    a row that is no dict, as it does for a labelled row followed by
    [None]; for the example of a final save that raises. *)
Definition is_dict (label : json) : bool :=
  match label with JObj _ => true | _ => false end.

Definition first_row_pandas : Pandas :=
  {| pd_DataFrame := λ rows,
       match rows with
       | JObj _ :: rest => if forallb is_dict rest then Ok () else Err TypeError
       | _ => Ok ()
       end;
     to_parquet := λ _ _, Ok ();
     to_csv := λ _ _, Ok () |}.

Definition demo_files : files := Files (Some demo_df) FileAbsent None None None.

Definition demo_state : state := State (replicate 3 JNull) ∅ 0 FileAbsent None 0.

(** ** What a task has left to do *)

(** A bound on the steps a task in this phase can still take: eight when
    the request at the gate succeeds (gate, request, parsing, lock and the
    four statements under it), and three more (gate, request, sleep) for
    every attempt that may fail before. *)
Definition steps_left (ph : phase) : nat :=
  match ph with
  | AtGate k => 8 + 3 * (5 - k)
  | InFlight k => 7 + 3 * (5 - k)
  | Backoff k => 9 + 3 * (5 - S k)
  | Parsing _ => 6
  | AtLock _ => 5
  | Locked CsWrite _ => 4
  | Locked CsAdd _ => 3
  | Locked CsCount _ => 2
  | Locked CsSave _ => 1
  | Finished => 0
  end.

Definition work_left (ts : list (nat * phase)) : nat :=
  sum_list ((λ t, steps_left t.2) <$> ts).

(** ** The text of a completion ([label_batch_async], before [json.loads])

    A Python [str] is the list of its code points. *)
Definition str : Type := list N.

(** [ch.isspace()], the characters [str.strip()] removes. *)
Definition isspace (ch : N) : bool :=
  (((0x09 <=? ch) && (ch <=? 0x0D)) || ((0x1C <=? ch) && (ch <=? 0x20))
   || (ch =? 0x85) || (ch =? 0xA0) || (ch =? 0x1680)
   || ((0x2000 <=? ch) && (ch <=? 0x200A))
   || (ch =? 0x2028) || (ch =? 0x2029) || (ch =? 0x202F) || (ch =? 0x205F)
   || (ch =? 0x3000))%N.

Fixpoint lstrip (s : str) : str :=
  match s with
  | [] => []
  | ch :: s' => if isspace ch then lstrip s' else s
  end.

Definition rstrip (s : str) : str := reverse (lstrip (reverse s)).

(** [s.strip()] *)
Definition strip (s : str) : str := rstrip (lstrip s).

(** [s.startswith(prefix)] *)
Fixpoint startswith (prefix s : str) : bool :=
  match prefix, s with
  | [], _ => true
  | _ :: _, [] => false
  | p :: prefix', ch :: s' => (p =? ch)%N && startswith prefix' s'
  end.

(** [s.split(sep)] for a separator that is not empty: the text is cut at
    the occurrences of [sep], searched from the left and not overlapping.
    [piece] is the current piece, last character first; [skip] counts the
    characters of a separator still to pass over. *)
Fixpoint split_from (sep : str) (skip : nat) (piece : str) (s : str) : list str :=
  match s with
  | [] => [reverse piece]
  | ch :: s' =>
      match skip with
      | S skip' => split_from sep skip' piece s'
      | 0 =>
          if startswith sep s
          then reverse piece :: split_from sep (length sep - 1) [] s'
          else split_from sep 0 (ch :: piece) s'
      end
  end.

Definition split (sep s : str) : list str := split_from sep 0 [] s.

Definition FENCE : str := [0x60; 0x60; 0x60]%N.            (* three backticks *)
Definition JSON_TAG : str := [0x6A; 0x73; 0x6F; 0x6E]%N.   (* "json" *)

(** The lines between [call_api] and [json.loads]: the content is
    stripped, a Markdown fence and its [json] tag are removed, and what is
    left is stripped again.  [None] is the [IndexError] of [[1]]. *)
Definition clean_content (content : str) : option str :=
  let content := strip content in
  content ←
    (if startswith FENCE content then
       content ← split FENCE content !! 1;
       Some (if startswith JSON_TAG content then drop 4 content else content)
     else Some content);
  Some (strip content).

(** The completion as the rest of the [try] block sees it, [json_loads]
    being the parser. *)
Definition completion_of (json_loads : str → option json) (content : option str)
  : option completion :=
  match content with
  | None => Some NoText
  | Some content => content ← clean_content content; Some (Text (json_loads content))
  end.

(** [sep in s] *)
Fixpoint contains (sep s : str) : bool :=
  startswith sep s || match s with [] => false | _ :: s' => contains sep s' end.

(** * Proofs *)

(** ** The definitions on small inputs *)

Example num_batches_101_50 : num_batches 101 50 = Ok 3.
Proof. reflexivity. Qed.

Example num_batches_zero_batch_size : num_batches 101 0 = Err ZeroDivisionError.
Proof. reflexivity. Qed.

Example last_batch_is_short :
  batch_texts 2 demo_texts <$> [0; 1] = [["good soup"; "cold fries"]; ["rude waiter"]].
Proof. reflexivity. Qed.

Example slice_assign_in_place :
  slice_assign 2 3 [JBool true] [JNull; JNull; JNull; JNull]
  = [JNull; JNull; JBool true; JNull].
Proof. reflexivity. Qed.

Example slice_assign_past_the_end :
  slice_assign 4 6 [JBool true] [JNull; JNull] = [JNull; JNull; JBool true].
Proof. reflexivity. Qed.

Example backoff_delays :
  wait_exponential 1 2 60 <$> seq 1 8 = [2; 2; 4; 8; 16; 32; 60; 60].
Proof. reflexivity. Qed.

Example third_attempt_succeeds :
  call_api (λ k, if decide (k < 3) then Err APITimeoutError else Ok NoText)
  = CallTrace (Ok NoText) 3 [2; 2].
Proof. reflexivity. Qed.

Example other_errors_are_not_retried :
  call_api (λ _, Err APIError) = CallTrace (Err APIError) 1 [].
Proof. reflexivity. Qed.

Example sorted_by_echoed_id :
  (labels_for 2 demo_service demo_texts 0).1
  = [JObj [("food_score", JNum 9)]; JObj [("food_score", JNum 10)]].
Proof. reflexivity. Qed.

Example mixed_ids_are_a_type_error :
  read_labels 2 (Text (Some (JArr [JObj [("id", JStr "a")]; JObj [("id", JNum 0)]])))
  = Err TypeError.
Proof. reflexivity. Qed.

Example non_dict_element :
  read_labels 2 (Text (Some (JArr [JNum 1; JObj [("id", JNum 0)]]))) = Err AttributeError.
Proof. reflexivity. Qed.

Example checkpoint_without_last_batch :
  load_checkpoint (FileText (Some (JObj [("labels", JArr [])]))) = None.
Proof. reflexivity. Qed.

Example demo_run :
  main_async (pandas := lenient_pandas) 2 "cleaned_text" demo_service demo_clock demo_files [1;
      0] None
  = Run Returned
        (Files (Some demo_df) FileAbsent None
               (Some (demo_df, [JObj [("food_score", JNum 9)];
                                JObj [("food_score", JNum 10)];
                                JObj [("food_score", JNum 11)]]))
               (Some (demo_df, [JObj [("food_score", JNum 9)];
                                JObj [("food_score", JNum 10)];
                                JObj [("food_score", JNum 11)]])))
        4.
Proof. reflexivity. Qed.

(** A labelled batch followed by a failed one: [pd.DataFrame] raises on
    a dict followed by [None], no output is written, and no checkpoint is
    there after two completions. *)
Example mixed_table_is_not_written :
  let service : service_t :=
    λ payload _,
      if decide (length payload = 2)
      then Ok (Text (Some (JArr (demo_annotation <$> payload))))
      else Err APIError in
  main_async (pandas := first_row_pandas) 2 "cleaned_text" service demo_clock
             demo_files [0; 1] None
  = Run (Raised TypeError) demo_files 2.
Proof. reflexivity. Qed.

(** Cancelled after one completion: no handler runs and no checkpoint is
    there. *)
Example cancelled_run_leaves_no_checkpoint :
  main_async (pandas := lenient_pandas) 2 "cleaned_text" demo_service demo_clock
             demo_files [1] (Some Cancelled)
  = Run (Raised CancelledError) demo_files 2.
Proof. reflexivity. Qed.

(** ** Slices *)

Section Slices.
Context {A : Type}.
Implicit Types (l v : list A) (s e i j : nat).

Lemma lookup_slice s e l j :
  slice s e l !! j = if decide (j < e - s) then l !! (s + j) else None.
Proof.
  unfold slice. case_decide.
  - rewrite lookup_take_lt by done. by rewrite lookup_drop.
  - by rewrite lookup_take_ge by lia.
Qed.

Lemma length_slice s e l : e ≤ length l → length (slice s e l) = e - s.
Proof. intros. unfold slice. rewrite length_take, length_drop. lia. Qed.

Lemma length_slice_assign s e v l :
  s ≤ e → e ≤ length l → length v = e - s →
  length (slice_assign s e v l) = length l.
Proof.
  intros. unfold slice_assign.
  rewrite !length_app, length_take, length_drop. lia.
Qed.

Lemma lookup_slice_assign s e v l i :
  s ≤ e → e ≤ length l → length v = e - s →
  slice_assign s e v l !! i =
    if decide (s ≤ i < e) then v !! (i - s) else l !! i.
Proof.
  intros Hse Hel Hv. unfold slice_assign.
  replace (s `max` e) with e by lia.
  destruct (decide (i < s)) as [Hlt|Hge].
  - rewrite lookup_app_l by (rewrite length_take; lia).
    rewrite lookup_take_lt by done. case_decide; [lia|done].
  - rewrite lookup_app_r by (rewrite length_take; lia).
    rewrite length_take. replace (s `min` length l) with s by lia.
    destruct (decide (i < e)) as [Hie|Hie].
    + rewrite lookup_app_l by lia. case_decide; [done|lia].
    + rewrite lookup_app_r by lia. rewrite lookup_drop.
      case_decide; [lia|]. f_equal. lia.
Qed.

Lemma slice_slice_assign_same s e v l :
  s ≤ e → e ≤ length l → length v = e - s →
  slice s e (slice_assign s e v l) = v.
Proof.
  intros Hse Hel Hv. apply list_eq. intros j.
  rewrite lookup_slice. case_decide as Hj.
  - rewrite lookup_slice_assign by done.
    case_decide; [|lia]. f_equal. lia.
  - symmetry. apply lookup_ge_None. lia.
Qed.

Lemma slice_slice_assign_other s e s' e' v l :
  s ≤ e → e ≤ length l → length v = e - s →
  e ≤ s' ∨ e' ≤ s →
  slice s' e' (slice_assign s e v l) = slice s' e' l.
Proof.
  intros Hse Hel Hv Hdisj. apply list_eq. intros j.
  rewrite !lookup_slice. case_decide as Hj; [|done].
  rewrite lookup_slice_assign by done.
  case_decide; [lia|done].
Qed.



End Slices.

(** ** The partition *)

Lemma Qceiling_div (a b : Z) :
  (0 < b)%Z → Qceiling (inject_Z a / inject_Z b)%Q = (- (- a / b))%Z.
Proof.
  intros Hb. destruct b as [|p|p]; try lia.
  unfold Qceiling, Qfloor, Qdiv, Qinv, Qmult, Qopp, inject_Z; simpl.
  by rewrite Z.mul_1_r.
Qed.

Lemma num_batches_bounds n B :
  1 ≤ B → ∃ nb, num_batches n B = Ok nb ∧ n ≤ nb * B ∧ nb * B < n + B.
Proof.
  intros HB. unfold num_batches, true_div, math_ceil.
  destruct (Z.eqb_spec (Z.of_nat B) 0) as [|_]; [lia|]. simpl.
  eexists; split; [done|].
  rewrite Qceiling_div by lia.
  pose proof (Z.div_mod (- Z.of_nat n) (Z.of_nat B)) as Hdm.
  pose proof (Z.mod_pos_bound (- Z.of_nat n) (Z.of_nat B)) as Hmod.
  set (d := (- Z.of_nat n / Z.of_nat B)%Z) in *.
  assert (d ≤ 0)%Z by nia.
  split; nia.
Qed.

(** ** The retry loop *)

Lemma retrying_eq retry wait m fn k :
  retrying retry wait m fn k =
    match fn k with
    | Ok resp => CallTrace (Ok resp) 1 []
    | Err e =>
        if retry e then
          if stop_after_attempt m k then CallTrace (Err RetryError) 1 []
          else
            let t := retrying retry wait m fn (S k) in
            CallTrace (outcome t) (S (requests t)) (wait k :: sleeps t)
        else CallTrace (Err e) 1 []
    end.
Proof.
  funelim (retrying retry wait m fn k);
    repeat match goal with
           | H : sigmaI _ _ _ = _ |- _ => clear H
           | H : fn _ = _ |- _ => rewrite H; clear H
           | H : retry _ = _ |- _ => rewrite H; clear H
           | H : stop_after_attempt _ _ = _ |- _ => rewrite H; clear H
           end; done.
Qed.

Lemma stop_after_attempt_false m k : stop_after_attempt m k = false → k < m.
Proof. unfold stop_after_attempt. intros H%bool_decide_eq_false. lia. Qed.

(** The shape of every decorated call: how many requests, which sleeps,
    and that each repeated request follows an error worth a retry. *)
Lemma retrying_requests retry wait m fn k :
  let t := retrying retry wait m fn k in
  1 ≤ requests t ∧ requests t ≤ 1 `max` (S m - k) ∧
  sleeps t = wait <$> seq k (requests t - 1) ∧
  (∀ j, k ≤ j < k + (requests t - 1) → ∃ e, fn j = Err e ∧ retry e = true).
Proof.
  funelim (retrying retry wait m fn k); simpl.
  1-3: repeat split; try lia; intros; lia.
  destruct H as (H1 & H2 & H3 & H4).
  pose proof (stop_after_attempt_false _ _ Hgo) as Hlt.
  rewrite Nat.sub_0_r. repeat split; try lia.
  - destruct (requests (retrying retry wait m fn (S k))) as [|r]; [lia|].
    simpl in *. rewrite Nat.sub_0_r in H3. by rewrite H3.
  - intros j Hj. destruct (decide (j = k)) as [->|]; [eauto|].
    apply H4. lia.
Qed.

(** ** Sorting by key *)

Lemma traverse_length {A B} (f : A → result B) l l' :
  traverse f l = Ok l' → length l' = length l.
Proof.
  revert l'. induction l as [|x l IH]; intros l'; simpl.
  - by intros [= <-].
  - destruct (f x); [|done]. simpl.
    destruct (traverse f l) as [ys|]; [|done]. simpl.
    intros [= <-]. simpl. f_equal. by apply IH.
Qed.

Lemma traverse_total {A B} (f : A → result B) l :
  Forall (λ x, ∃ y, f x = Ok y) l → ∃ l', traverse f l = Ok l'.
Proof.
  induction 1 as [|x l [y Hy] _ [l' IH]]; simpl; [eauto|].
  rewrite Hy, IH. simpl. eauto.
Qed.

Section Insertion.
Context {A : Type}.
Implicit Types (l r : list (json * A)).

Lemma insert_sorted_int z x l :
  Forall int_key l →
  ∃ r, insert_sorted (JNum z) x l = Ok r ∧
       r ≡ₚ (JNum z, x) :: l ∧
       Forall int_key r ∧
       (StronglySorted key_le l → StronglySorted key_le r) ∧
       (∀ w, filter (λ kx, key_of kx = w) r
             = filter (λ kx, key_of kx = w) ((JNum z, x) :: l)).
Proof.
  induction 1 as [|[k' y] l [z' Hz'] Hl IH]; simpl.
  - eexists; split; [done|]. repeat split; auto.
    + repeat constructor. by exists z.
    + intros _. repeat constructor.
  - simpl in Hz'. subst k'. simpl.
    destruct (Z.ltb_spec z' z) as [Hlt|Hge].
    + destruct IH as (r & -> & Hperm & Hint & Hsort & Hstable). simpl.
      eexists; split; [done|]. repeat split.
      * rewrite Hperm. apply Permutation_swap.
      * constructor; [by exists z'|done].
      * intros Hs. apply StronglySorted_inv in Hs as [Hs Hall].
        constructor; [by apply Hsort|].
        rewrite Hperm. constructor; [|done].
        unfold key_le, key_of; simpl. lia.
      * intros w. rewrite (filter_cons _ (JNum z', y)), Hstable.
        rewrite !filter_cons.
        change (key_of (JNum z', y)) with z'. change (key_of (JNum z, x)) with z.
        repeat case_decide; try done; lia.
    + eexists; split; [done|]. repeat split; auto.
      * constructor; [by exists z|]. constructor; [by exists z'|done].
      * intros Hs. constructor; [done|].
        pose proof Hs as Hs'. apply StronglySorted_inv in Hs' as [_ Hall].
        constructor; [unfold key_le, key_of; simpl; lia|].
        eapply Forall_impl; [exact Hall|].
        intros kx. unfold key_le, key_of; simpl. lia.
Qed.

Lemma sorted_keyed_int l :
  Forall int_key l →
  ∃ r, sorted_keyed l = Ok r ∧ r ≡ₚ l ∧ Forall int_key r ∧
       StronglySorted key_le r ∧
       (∀ w, filter (λ kx, key_of kx = w) r = filter (λ kx, key_of kx = w) l).
Proof.
  induction 1 as [|[k x] l [z Hz] Hl (r & Hr & Hperm & Hint & Hsort & Hstable)]; simpl.
  - eexists; split; [done|]. repeat split; auto. constructor.
  - simpl in Hz. subst k. rewrite Hr. simpl.
    destruct (insert_sorted_int z x r Hint) as (r' & -> & Hperm' & Hint' & Hsort' & Hst').
    eexists; split; [done|]. repeat split; auto.
    + by rewrite Hperm', Hperm.
    + intros w. rewrite Hst', !filter_cons, Hstable. done.
Qed.

End Insertion.

(** ** Reconciliation *)

Lemma has_int_id_get d : has_int_id d → get_id d = Ok (JNum (id_value d)).
Proof. intros [z Hz]. unfold id_value. by rewrite Hz. Qed.

Lemma has_int_id_pop d : has_int_id d → ∃ d', pop_id d = Ok d'.
Proof. intros [z Hz]. destruct d; try done. simpl. eauto. Qed.

Lemma traverse_keys l :
  Forall has_int_id l →
  traverse (λ x, k ←! get_id x; Ok (k, x)) l
  = Ok ((λ d, (JNum (id_value d), d)) <$> l).
Proof.
  induction 1 as [|d l Hd _ IH]; simpl; [done|].
  rewrite (has_int_id_get d Hd), IH. done.
Qed.

Lemma traverse_Forall2 {A B} (f : A → result B) l l' :
  traverse f l = Ok l' → Forall2 (λ x y, f x = Ok y) l l'.
Proof.
  revert l'. induction l as [|x l IH]; intros l'; simpl.
  - intros [= <-]. constructor.
  - destruct (f x) as [y|] eqn:Hfx; [|done]. simpl.
    destruct (traverse f l) as [ys|]; [|done]. simpl.
    intros [= <-]. constructor; auto.
Qed.

Lemma StronglySorted_fmap_inv {A B} (f : A → B) (R1 : relation A) (R2 : relation B) l :
  (∀ x y, R2 (f x) (f y) → R1 x y) →
  StronglySorted R2 (f <$> l) → StronglySorted R1 l.
Proof.
  intros HR. induction l as [|x l IH]; csimpl; [constructor|].
  intros [Hl Hx]%StronglySorted_inv. constructor; [auto|].
  rewrite Forall_fmap in Hx. eapply Forall_impl; [exact Hx|]. intros y. apply HR.
Qed.

Lemma StronglySorted_seq a n : StronglySorted le (seq a n).
Proof.
  revert a. induction n as [|n IH]; intros a; simpl; constructor; [apply IH|].
  apply Forall_seq. intros; lia.
Qed.

Lemma keyed_snd (r : list (json * json)) :
  Forall (λ kx, kx.1 = JNum (id_value kx.2)) r →
  r = (λ d, (JNum (id_value d), d)) <$> r.*2.
Proof.
  induction 1 as [|[k d] r Hk _ IH]; simpl; [done|].
  simpl in Hk. subst k. f_equal. done.
Qed.

Lemma filter_keyed (l : list json) w :
  (filter (λ kx : json * json, key_of kx = w)
          ((λ d, (JNum (id_value d), d)) <$> l)).*2
  = filter (λ d, id_value d = w) l.
Proof.
  induction l as [|d l IH]; [done|].
  rewrite fmap_cons, !filter_cons.
  change (key_of (JNum (id_value d), d)) with (id_value d).
  case_decide; csimpl; by rewrite IH.
Qed.

(** With integer ids the client never rejects a list of the right length:
    it returns the elements in ascending order of id, equal ids in the
    order of the response, each without its id. *)
Lemma read_labels_sorted n data_list :
  length data_list = n →
  Forall has_int_id data_list →
  ∃ ordered out,
    read_labels n (Text (Some (JArr data_list))) = Ok out ∧
    ordered ≡ₚ data_list ∧
    StronglySorted (λ a b, (id_value a ≤ id_value b)%Z) ordered ∧
    (∀ w, filter (λ d, id_value d = w) ordered
          = filter (λ d, id_value d = w) data_list) ∧
    Forall2 (λ d d', pop_id d = Ok d') ordered out.
Proof.
  intros Hlen Hids. unfold read_labels.
  rewrite bool_decide_eq_false_2 by (intros ?; lia).
  unfold sorted. rewrite traverse_keys by done. simpl.
  set (keyed := (λ d, (JNum (id_value d), d)) <$> data_list).
  assert (Forall int_key keyed) as Hint.
  { apply Forall_fmap, Forall_forall. intros d _. by eexists. }
  destruct (sorted_keyed_int keyed Hint) as (r & -> & Hperm & _ & Hsort & Hstable).
  simpl.
  assert (Forall (λ kx : json * json, kx.1 = JNum (id_value kx.2)) r) as Hform.
  { rewrite Hperm. apply Forall_fmap, Forall_forall. by intros d _. }
  assert (r.*2 ≡ₚ data_list) as Hperm2.
  { rewrite Hperm. unfold keyed. rewrite <-list_fmap_compose.
    by rewrite list_fmap_id. }
  assert (Forall has_int_id (r.*2)) as Hids2 by by rewrite Hperm2.
  destruct (traverse_total pop_id (r.*2)) as [out Hout].
  { eapply Forall_impl; [exact Hids2|]. apply has_int_id_pop. }
  exists (r.*2), out. split; [done|]. split; [done|]. repeat split.
  - rewrite (keyed_snd r Hform) in Hsort.
    eapply StronglySorted_fmap_inv; [|exact Hsort]. by intros a b.
  - intros w.
    rewrite <-(filter_keyed (r.*2)), <-(keyed_snd r Hform), Hstable.
    apply filter_keyed.
  - by apply traverse_Forall2.
Qed.

(** When the echoed ids are [0 .. n-1] in some order, the element that
    echoed [j] ends at position [j]. *)
Lemma read_labels_position n data_list out :
  length data_list = n →
  Forall has_int_id data_list →
  id_value <$> data_list ≡ₚ Z.of_nat <$> seq 0 n →
  read_labels n (Text (Some (JArr data_list))) = Ok out →
  ∀ i d, data_list !! i = Some d →
    ∃ d', pop_id d = Ok d' ∧ out !! Z.to_nat (id_value d) = Some d'.
Proof.
  intros Hlen Hids Hperm Hout i d Hd.
  destruct (read_labels_sorted n data_list Hlen Hids)
    as (ordered & out' & Hout' & Hord & Hsort & _ & Hpop).
  rewrite Hout in Hout'. injection Hout' as <-.
  assert (id_value <$> ordered = Z.of_nat <$> seq 0 n) as Hkeys.
  { apply (StronglySorted_unique Z.le).
    - eapply StronglySorted_fmap; [|exact Hsort]. done.
    - apply (StronglySorted_fmap _ le); [intros ??; lia|].
      apply StronglySorted_seq.
    - by rewrite Hord. }
  assert (d ∈ ordered) as [p Hp]%list_elem_of_lookup.
  { rewrite Hord. by eapply list_elem_of_lookup_2. }
  assert (id_value d = Z.of_nat p) as Hp'.
  { assert ((id_value <$> ordered) !! p = Some (id_value d)) as Hl
      by by rewrite list_lookup_fmap, Hp.
    rewrite Hkeys, list_lookup_fmap in Hl.
    destruct (seq 0 n !! p) as [q|] eqn:Hq; [|done].
    apply lookup_seq in Hq as [-> _]. by injection Hl as <-. }
  rewrite Hp', Nat2Z.id.
  destruct (Forall2_lookup_l _ _ _ _ _ Hpop Hp) as (d' & Hd' & Hpd).
  eauto.
Qed.

(** ** What [label_batch_async] returns *)

Lemma insert_sorted_length {A} k (x : A) l r :
  insert_sorted k x l = Ok r → length r = S (length l).
Proof.
  revert r. induction l as [|[k' y] l IH]; intros r; simpl.
  - by intros [= <-].
  - destruct (py_lt k' k) as [[]|]; [| |done].
    + destruct (insert_sorted k x l) as [r'|]; [|done]. simpl.
      intros [= <-]. simpl. f_equal. by apply IH.
    + by intros [= <-].
Qed.

Lemma sorted_keyed_length {A} (l r : list (json * A)) :
  sorted_keyed l = Ok r → length r = length l.
Proof.
  revert r. induction l as [|[k x] l IH]; intros r; simpl.
  - by intros [= <-].
  - destruct (sorted_keyed l) as [r'|]; [|done]. simpl.
    intros ->%insert_sorted_length. f_equal. by apply IH.
Qed.

Lemma sorted_length {A} (key : A → result json) l r :
  sorted key l = Ok r → length r = length l.
Proof.
  unfold sorted.
  destruct (traverse _ l) as [keyed|] eqn:Hk; [|done]. simpl.
  destruct (sorted_keyed keyed) as [r'|] eqn:Hr; [|done]. simpl.
  intros [= <-]. rewrite length_fmap.
  apply sorted_keyed_length in Hr. apply traverse_length in Hk. congruence.
Qed.

Lemma read_labels_length n resp out :
  read_labels n resp = Ok out → length out = n.
Proof.
  unfold read_labels. destruct resp as [|[[| | | |data_list|]|]]; try done.
  case_bool_decide as Hn; [done|].
  destruct (sorted get_id data_list) as [r|] eqn:Hr; [|done]. simpl.
  intros ->%traverse_length. apply sorted_length in Hr.
  rewrite Hr. by destruct (decide (length data_list = n)).
Qed.

(** [label_batch_async] always returns, and one label per text. *)
Lemma labels_of_length n r : length (labels_of n r) = n.
Proof.
  unfold labels_of.
  destruct (bind r _) as [out|e] eqn:Hr.
  - destruct r as [resp|]; [|done]. by apply read_labels_length in Hr.
  - destruct e; apply length_replicate.
Qed.

Lemma labels_of_read_error n resp e :
  read_labels n resp = Err e → labels_of n (Ok resp) = replicate n JNull.
Proof. unfold labels_of; simpl. intros ->. by destruct e. Qed.

(** ** The retry policy *)

Lemma transient_retry e :
  retry_if_exception_type transient_errors e = true ↔ e ∈ transient_errors.
Proof. unfold retry_if_exception_type. apply bool_decide_eq_true. Qed.

Lemma wait_exponential_bounds k :
  2 ≤ wait_exponential 1 2 60 k ≤ 60 ∧
  wait_exponential 1 2 60 k = 2 `max` (2 ^ (k - 1) `min` 60).
Proof. unfold wait_exponential. rewrite Nat.mul_1_l. lia. Qed.

Lemma wait_exponential_doubles k :
  2 ≤ k →
  wait_exponential 1 2 60 (S k) = (2 * wait_exponential 1 2 60 k) `min` 60.
Proof.
  intros Hk. unfold wait_exponential. rewrite !Nat.mul_1_l.
  destruct k as [|k]; [lia|]. simpl Nat.sub. rewrite Nat.sub_0_r.
  assert (2 ≤ 2 ^ k) by (destruct k as [|k]; [lia|]; rewrite Nat.pow_succ_r'; pose proof (Nat.pow_nonzero 2 k); lia).
  rewrite Nat.pow_succ_r'. lia.
Qed.

(** Five transient errors in a row exhaust the attempts. *)
Lemma call_api_exhausted fn :
  (∀ k, 1 ≤ k ≤ 5 → ∃ e, fn k = Err e ∧ e ∈ transient_errors) →
  call_api fn = CallTrace (Err RetryError) 5 [2; 2; 4; 8].
Proof.
  intros Hfn. unfold call_api.
  do 5 (rewrite retrying_eq;
        match goal with
        | |- context [fn ?k] =>
            destruct (Hfn k) as (? & -> & ->%transient_retry); [lia|]
        end; cbn [stop_after_attempt bool_decide decide_rel]; simpl).
  reflexivity.
Qed.

(** A response that is no list of the right length, or no JSON, or no
    text at all. *)
Lemma read_labels_malformed n resp :
  malformed n resp = true → ∃ e, read_labels n resp = Err e.
Proof.
  unfold malformed, read_labels.
  destruct resp as [|[[| | | |data_list|]|]]; eauto.
  intros ->. eauto.
Qed.

(** ** Completions one after another *)

Section Completions.

Context {pandas : Pandas}.

Variable BATCH_SIZE : nat.
Variable service : service_t.
Variable clock : nat → string.
Variable df : dataframe.
Variable texts : list string.

#[local] Abbreviation n := (length texts).
#[local] Abbreviation bstart := (batch_start BATCH_SIZE).
#[local] Abbreviation bend := (batch_end BATCH_SIZE n).
#[local] Abbreviation labels b := (labels_for BATCH_SIZE service texts b).1.
#[local] Abbreviation serial := (foldl (handle_batch BATCH_SIZE service clock df texts)).

(** [cs_save] only touches the files. *)
Lemma cs_save_labels b st : all_labels (cs_save clock df b st) = all_labels st.
Proof. unfold cs_save. by case_bool_decide. Qed.

Lemma cs_save_completed b st :
  completed_batches (cs_save clock df b st) = completed_batches st.
Proof. unfold cs_save. by case_bool_decide. Qed.

Lemma cs_save_count b st :
  processed_count (cs_save clock df b st) = processed_count st.
Proof. unfold cs_save. by case_bool_decide. Qed.

Lemma handle_batch_labels st b :
  all_labels (handle_batch BATCH_SIZE service clock df texts st b)
  = slice_assign (bstart b) (bend b) (labels b) (all_labels st).
Proof. unfold handle_batch, critical_section. by rewrite cs_save_labels. Qed.

Lemma handle_batch_completed st b :
  completed_batches (handle_batch BATCH_SIZE service clock df texts st b)
  = {[b]} ∪ completed_batches st.
Proof. unfold handle_batch, critical_section. by rewrite cs_save_completed. Qed.

Lemma handle_batch_count st b :
  processed_count (handle_batch BATCH_SIZE service clock df texts st b)
  = S (processed_count st).
Proof. unfold handle_batch, critical_section. by rewrite cs_save_count. Qed.

Lemma serial_completed st hist :
  completed_batches (serial st hist) = list_to_set hist ∪ completed_batches st.
Proof.
  revert st. induction hist as [|b hist IH]; intros st; simpl.
  - set_solver.
  - rewrite IH, handle_batch_completed. set_solver.
Qed.

Lemma serial_count st hist :
  processed_count (serial st hist) = processed_count st + length hist.
Proof.
  revert st. induction hist as [|b hist IH]; intros st; simpl.
  - lia.
  - rewrite IH, handle_batch_count. lia.
Qed.



End Completions.

Section Serial.

Context {pandas : Pandas}.

Variable BATCH_SIZE : nat.
Variable service : service_t.
Variable clock : nat → string.
Variable df : dataframe.
Variable texts : list string.
Variable nb : nat.

Hypothesis nb_upper : length texts ≤ nb * BATCH_SIZE.
Hypothesis nb_lower : nb * BATCH_SIZE < length texts + BATCH_SIZE.

#[local] Abbreviation n := (length texts).
#[local] Abbreviation bstart := (batch_start BATCH_SIZE).
#[local] Abbreviation bend := (batch_end BATCH_SIZE n).
#[local] Abbreviation seg b l := (slice (bstart b) (bend b) l).
#[local] Abbreviation labels b := (labels_for BATCH_SIZE service texts b).1.
#[local] Abbreviation serial := (foldl (handle_batch BATCH_SIZE service clock df texts)).

Lemma batch_bounds b : b < nb → bstart b < bend b ∧ bend b ≤ n.
Proof. unfold batch_start, batch_end. intros. split; nia. Qed.

Lemma batch_disjoint b b' :
  b ≠ b' → bend b ≤ bstart b' ∨ bend b' ≤ bstart b.
Proof. unfold batch_start, batch_end. intros. nia. Qed.

Lemma length_batch_texts b :
  b < nb → length (batch_texts BATCH_SIZE texts b) = bend b - bstart b.
Proof.
  intros Hb. unfold batch_texts. apply length_slice.
  by apply batch_bounds.
Qed.

Lemma length_labels b : b < nb → length (labels b) = bend b - bstart b.
Proof.
  intros Hb. unfold labels_for, label_batch_async. simpl.
  rewrite labels_of_length. by apply length_batch_texts.
Qed.

Lemma handle_batch_length st b :
  b < nb → length (all_labels st) = n →
  length (all_labels (handle_batch BATCH_SIZE service clock df texts st b)) = n.
Proof.
  intros Hb Hn. destruct (batch_bounds b Hb).
  rewrite handle_batch_labels, length_slice_assign; [done|lia|lia|].
  by apply length_labels.
Qed.

Lemma handle_batch_seg st b b' :
  b < nb → length (all_labels st) = n →
  seg b' (all_labels (handle_batch BATCH_SIZE service clock df texts st b))
  = if decide (b' = b) then labels b else seg b' (all_labels st).
Proof.
  intros Hb Hn. destruct (batch_bounds b Hb).
  rewrite handle_batch_labels. case_decide as Hbb.
  - subst b'. apply slice_slice_assign_same; [lia|lia|by apply length_labels].
  - apply slice_slice_assign_other; [lia|lia|by apply length_labels|].
    by apply batch_disjoint.
Qed.

Lemma serial_length st hist :
  Forall (λ b, b < nb) hist → length (all_labels st) = n →
  length (all_labels (serial st hist)) = n.
Proof.
  intros Hv. revert st. induction Hv as [|b hist Hb _ IH]; intros st Hn; simpl.
  - done.
  - apply IH. by apply handle_batch_length.
Qed.

(** Whatever the order, the segment of a batch that completed holds its
    labels and every other segment is as it was. *)
Lemma serial_seg st hist b' :
  Forall (λ b, b < nb) hist → length (all_labels st) = n →
  seg b' (all_labels (serial st hist))
  = if decide (b' ∈ hist) then labels b' else seg b' (all_labels st).
Proof.
  intros Hv. revert st.
  induction Hv as [|b hist Hb _ IH]; intros st Hn; cbn [foldl].
  - by rewrite decide_False by apply not_elem_of_nil.
  - rewrite IH by by apply handle_batch_length.
    rewrite handle_batch_seg by done.
    repeat case_decide; try done; set_solver.
Qed.

(** A table is determined by its segments. *)
Lemma table_ext (l1 l2 : list json) :
  1 ≤ BATCH_SIZE →
  length l1 = n → length l2 = n →
  (∀ b, b < nb → seg b l1 = seg b l2) → l1 = l2.
Proof.
  intros HB H1 H2 Hseg. apply list_eq. intros i.
  destruct (decide (i < n)) as [Hi|Hi].
  - set (b := i `div` BATCH_SIZE).
    assert (b * BATCH_SIZE ≤ i < (b + 1) * BATCH_SIZE) as Hb.
    { pose proof (Nat.div_mod_eq i BATCH_SIZE).
      pose proof (Nat.mod_upper_bound i BATCH_SIZE). unfold b. nia. }
    assert (b < nb) as Hbn by nia.
    specialize (Hseg b Hbn).
    apply (f_equal (λ l, l !! (i - bstart b))) in Hseg.
    simpl in Hseg. rewrite !lookup_slice in Hseg.
    unfold batch_start, batch_end in Hseg.
    destruct (decide _) as [_|Hno] in Hseg; [|lia].
    by replace (b * BATCH_SIZE + (i - b * BATCH_SIZE)) with i in Hseg by lia.
  - rewrite !lookup_ge_None_2 by lia. done.
Qed.

End Serial.


(** ** The controller *)

Lemma filter_all {A} (P : A → Prop) `{∀ x, Decision (P x)} (l : list A) :
  (∀ x, P x) → filter P l = l.
Proof.
  intros HP. induction l as [|x l IH]; [done|].
  rewrite filter_cons, decide_True by done. by rewrite IH.
Qed.

(** The pending batches are those of [range(num_batches)] that are not in
    the completed set, also on a fresh start. *)
Lemma seed_pending n nb ck labels0 completed0 pending0 :
  seed n nb ck = Seeded labels0 completed0 pending0 →
  pending0 = filter (λ b, b ∉ completed0) (seq 0 nb).
Proof.
  unfold seed. intros Hseed.
  assert (Seeded (replicate n JNull) ∅ (seq 0 nb) = Seeded labels0 completed0 pending0 →
          pending0 = filter (λ b, b ∉ completed0) (seq 0 nb)) as Hfresh.
  { intros [= <- <- <-]. symmetry. apply filter_all. set_solver. }
  destruct ck as [ck|]; [|by apply Hfresh].
  destruct (truthy ck); [|by apply Hfresh].
  destruct (py_getitem ck "labels") as [[| | | |l|]|]; try done.
  destruct (completed_of ck); [|done]. by injection Hseed as <- <- <-.
Qed.

Lemma pending_lt n nb ck labels0 completed0 pending0 :
  seed n nb ck = Seeded labels0 completed0 pending0 →
  Forall (λ b, b < nb) pending0.
Proof.
  intros ->%seed_pending. apply Forall_forall.
  intros b [_ Hb%elem_of_seq]%list_elem_of_filter. lia.
Qed.

Lemma counterexample_ids_not_a_match :
  ¬ ([0; 0]%Z ≡ₚ [0; 1]%Z).
Proof.
  intros Hperm. assert (1%Z ∈ [0; 0]%Z) as Hin by (rewrite Hperm; set_solver).
  set_solver.
Qed.

(** ** Saving and loading a checkpoint *)



Section Runs.

Context {pandas : Pandas}.

Variable BATCH_SIZE : nat.
Variable TEXT_COL : string.
Variable service : service_t.

(** [main_async] past its checks. *)
Lemma main_async_dispatch clock fs df texts nb labels0 completed0 pending0 order stop :
  path_input fs = Some df →
  df_column TEXT_COL df = Some texts →
  num_batches (length texts) BATCH_SIZE = Ok nb →
  seed (length texts) nb (load_checkpoint (path_checkpoint fs))
    = Seeded labels0 completed0 pending0 →
  let st :=
    foldl (handle_batch BATCH_SIZE service clock df texts)
          (State labels0 completed0 0 (path_checkpoint fs) (path_intermediate fs) 0)
          order in
  let calls :=
    sum_list ((λ b, requests (labels_for BATCH_SIZE service texts b).2) <$> order) in
  main_async BATCH_SIZE TEXT_COL service clock fs order stop =
    match stop with
    | Some Cancelled =>
        Run (Raised CancelledError)
            (Files (path_input fs) (checkpoint_file st) (intermediate_file st)
                   (path_output_parquet fs) (path_output_csv fs))
            calls
    | Some why =>
        Run (handler_ending why df st)
            (Files (path_input fs) (checkpoint_file (flush clock df st))
                   (intermediate_file (flush clock df st))
                   (path_output_parquet fs) (path_output_csv fs))
            calls
    | None => final_save fs df (length texts) calls st
    end.
Proof.
  intros Hin Hcol Hnb Hseed. unfold main_async.
  by rewrite Hin, Hcol, Hnb, Hseed.
Qed.

Lemma pending_of_eq fs df texts nb labels0 completed0 pending0 :
  path_input fs = Some df →
  df_column TEXT_COL df = Some texts →
  num_batches (length texts) BATCH_SIZE = Ok nb →
  seed (length texts) nb (load_checkpoint (path_checkpoint fs))
    = Seeded labels0 completed0 pending0 →
  pending_of BATCH_SIZE TEXT_COL fs = Some pending0.
Proof.
  intros Hin Hcol Hnb Hseed. unfold pending_of.
  rewrite Hin. cbn [mbind option_bind]. rewrite Hcol. cbn [mbind option_bind].
  by rewrite Hnb, Hseed.
Qed.

Lemma gathered_eq clock fs df texts nb labels0 completed0 pending0 order :
  path_input fs = Some df →
  df_column TEXT_COL df = Some texts →
  num_batches (length texts) BATCH_SIZE = Ok nb →
  seed (length texts) nb (load_checkpoint (path_checkpoint fs))
    = Seeded labels0 completed0 pending0 →
  gathered BATCH_SIZE TEXT_COL service clock fs order
  = Some (foldl (handle_batch BATCH_SIZE service clock df texts)
                (State labels0 completed0 0 (path_checkpoint fs) (path_intermediate fs) 0)
                order).
Proof.
  intros Hin Hcol Hnb Hseed. unfold gathered.
  rewrite Hin. cbn [mbind option_bind]. rewrite Hcol. cbn [mbind option_bind].
  by rewrite Hnb, Hseed.
Qed.

End Runs.

(** ** The final save *)


(** How the final save ends and what it writes depend on the table
    only. *)
Lemma final_save_table {pandas : Pandas} fs fs' df n calls calls' st st' :
  all_labels st = all_labels st' →
  path_output_parquet fs = path_output_parquet fs' →
  path_output_csv fs = path_output_csv fs' →
  status (final_save fs df n calls st) = status (final_save fs' df n calls' st') ∧
  path_output_parquet (disk (final_save fs df n calls st))
    = path_output_parquet (disk (final_save fs' df n calls' st')) ∧
  path_output_csv (disk (final_save fs df n calls st))
    = path_output_csv (disk (final_save fs' df n calls' st')).
Proof.
  intros Htable Hp Hc. unfold final_save. rewrite Htable, Hp, Hc.
  destruct (pd_DataFrame _); [|done].
  destruct (to_parquet _ _); [|done].
  destruct (to_csv _ _); [|done].
  by case_bool_decide.
Qed.

(** A final save that returns has written both outputs and removed the
    checkpoint and the intermediate file. *)
Lemma final_save_returned {pandas : Pandas} fs df n calls st :
  status (final_save fs df n calls st) = Returned →
  final_save fs df n calls st
  = Run Returned
        (Files (path_input fs) FileAbsent None
               (Some (df, all_labels st)) (Some (df, all_labels st)))
        calls.
Proof.
  unfold final_save.
  destruct (pd_DataFrame _); [|done].
  destruct (to_parquet _ _); [|done].
  destruct (to_csv _ _); [|done].
  case_bool_decide; [done|]. intros _.
  by destruct (checkpoint_file st).
Qed.

Lemma final_save_returns {pandas : Pandas} fs df n calls st :
  pd_DataFrame (all_labels st) = Ok () →
  to_parquet df (all_labels st) = Ok () →
  to_csv df (all_labels st) = Ok () →
  n ≠ 0 →
  status (final_save fs df n calls st) = Returned.
Proof.
  intros H1 H2 H3 Hn. unfold final_save. rewrite H1, H2, H3.
  by rewrite bool_decide_eq_false_2.
Qed.


(** No output is written when [pd.DataFrame] raises. *)
Lemma final_save_no_frame {pandas : Pandas} fs df n calls st e :
  pd_DataFrame (all_labels st) = Err e →
  final_save fs df n calls st
  = Run (Raised e)
        (Files (path_input fs) (checkpoint_file st) (intermediate_file st)
               (path_output_parquet fs) (path_output_csv fs))
        calls.
Proof. intros He. unfold final_save. by rewrite He. Qed.

Lemma final_save_requests {pandas : Pandas} fs df n calls st :
  requests_made (final_save fs df n calls st) = calls.
Proof.
  unfold final_save.
  destruct (pd_DataFrame _); [|done].
  destruct (to_parquet _ _); [|done].
  destruct (to_csv _ _); [|done].
  by case_bool_decide.
Qed.

Lemma final_save_input {pandas : Pandas} fs df n calls st :
  path_input (disk (final_save fs df n calls st)) = path_input fs.
Proof.
  unfold final_save.
  destruct (pd_DataFrame _); [|done].
  destruct (to_parquet _ _); [|done].
  destruct (to_csv _ _); [|done].
  by case_bool_decide.
Qed.

(** ** The gate *)

Lemma count_phase_insert p (ts : list (nat * phase)) i t t' :
  ts !! i = Some t →
  count_phase p (<[i:=t']> ts) + (if p t.2 then 1 else 0)
  = count_phase p ts + (if p t'.2 then 1 else 0).
Proof.
  unfold count_phase. revert i.
  induction ts as [|t0 ts IH]; intros [|i] Hi; simpl in *; try done.
  - injection Hi as ->. rewrite !filter_cons.
    destruct (p t.2), (p t'.2); repeat case_decide; simpl; try done; lia.
  - rewrite !filter_cons. specialize (IH i Hi).
    case_decide; simpl; lia.
Qed.

Lemma count_phase_start p (l : list nat) k :
  p (AtGate k) = false → count_phase p ((λ b, (b, AtGate k)) <$> l) = 0.
Proof.
  intros Hp. unfold count_phase. induction l as [|b l IH]; [done|].
  rewrite fmap_cons, filter_cons. simpl. case_decide; [congruence|done].
Qed.

Section Gate.

Context {pandas : Pandas}.

Variable BATCH_SIZE : nat.
Variable MAX_CONCURRENCY : nat.
Variable service : service_t.
Variable clock : nat → string.
Variable df : dataframe.
Variable texts : list string.

#[local] Abbreviation steps := (step BATCH_SIZE service clock df texts).
#[local] Abbreviation reach :=
  (reachable BATCH_SIZE MAX_CONCURRENCY service clock df texts).

Lemma reachable_invariant (P : config → Prop) st pending :
  P (start MAX_CONCURRENCY st pending) →
  (∀ c c', reach st pending c → P c → steps c c' → P c') →
  ∀ c, reach st pending c → P c.
Proof.
  intros Hstart Hstep. unfold reachable in *.
  apply rtc_ind_r; [done|].
  intros c c' Hc Hcc' IH. by eapply Hstep.
Qed.

(** Every permit that is out is held by a task whose request is out. *)
Lemma permits_invariant st pending c :
  reach st pending c →
  sem c + count_phase in_flight (tasks c) = MAX_CONCURRENCY.
Proof.
  revert c. apply reachable_invariant.
  - simpl. by rewrite count_phase_start.
  - intros c c' _ IH Hstep.
    destruct Hstep as [c i b k Hi Hsem|c i b k resp Hi _|c i b k e Hi _ _
                      |c i b k e Hi _ _ _|c i b k e Hi _ _ _|c i b k Hi
                      |c i b r Hi|c i b labels Hi _|c i b labels Hi
                      |c i b labels Hi|c i b labels Hi|c i b labels Hi];
      simpl; unfold set_task;
      match goal with
      | |- context [<[i:=?t']> _] =>
          pose proof (count_phase_insert in_flight _ _ _ t' Hi) as Hcnt
      end; simpl in Hcnt; lia.
Qed.

End Gate.

(** ** The lock *)

Lemma finished_insert_same ts i b ph ph' :
  ts !! i = Some (b, ph) → is_finished ph = false → is_finished ph' = false →
  finished_batches (<[i:=(b, ph')]> ts) = finished_batches ts.
Proof.
  unfold finished_batches. revert i.
  induction ts as [|t ts IH]; intros [|i] Hi Hph Hph'; simpl in *; try done.
  - injection Hi as ->. rewrite !filter_cons. simpl.
    repeat case_decide; done || congruence.
  - rewrite !filter_cons. case_decide; csimpl; by rewrite IH.
Qed.

Lemma finished_insert_done ts i b ph :
  ts !! i = Some (b, ph) → is_finished ph = false →
  finished_batches (<[i:=(b, Finished)]> ts) ≡ₚ b :: finished_batches ts.
Proof.
  unfold finished_batches. revert i.
  induction ts as [|t ts IH]; intros [|i] Hi Hph; simpl in *; try done.
  - injection Hi as ->. rewrite !filter_cons. simpl.
    repeat case_decide; done || congruence.
  - rewrite !filter_cons. case_decide; csimpl; rewrite IH by done; [|done].
    apply Permutation_swap.
Qed.

Lemma finished_batches_start (l : list nat) k :
  finished_batches ((λ b, (b, AtGate k)) <$> l) = [].
Proof.
  unfold finished_batches. induction l as [|b l IH]; [done|].
  rewrite fmap_cons, filter_cons. by case_decide.
Qed.

Lemma finished_sublist ts : finished_batches ts `sublist_of` ts.*1.
Proof. unfold finished_batches. apply fmap_sublist, sublist_filter. Qed.

Lemma fst_insert_task (ts : list (nat * phase)) i b ph ph' :
  ts !! i = Some (b, ph) → (<[i:=(b, ph')]> ts).*1 = ts.*1.
Proof.
  intros Hi. rewrite list_fmap_insert. simpl.
  apply list_insert_id. by rewrite list_lookup_fmap, Hi.
Qed.

Section Lock.

Context {pandas : Pandas}.

Variable BATCH_SIZE : nat.
Variable MAX_CONCURRENCY : nat.
Variable service : service_t.
Variable clock : nat → string.
Variable df : dataframe.
Variable texts : list string.

#[local] Abbreviation steps := (step BATCH_SIZE service clock df texts).
#[local] Abbreviation reach :=
  (reachable BATCH_SIZE MAX_CONCURRENCY service clock df texts).
#[local] Abbreviation serial := (foldl (handle_batch BATCH_SIZE service clock df texts)).
#[local] Abbreviation owned := (owner_inv BATCH_SIZE service clock df texts).
#[local] Abbreviation ok := (task_ok BATCH_SIZE service texts).

(** A step of a task outside the critical section. *)
Lemma owner_inv_outside st0 hist l sh ts i b ph ph' :
  owned st0 hist l sh ts →
  ts !! i = Some (b, ph) → in_cs ph = false → in_cs ph' = false →
  owned st0 hist l sh (<[i:=(b, ph')]> ts).
Proof.
  intros [(-> & Hall & ->)|(-> & i0 & b0 & ph0 & Hi0 & Hcs & Hothers & ->)] Hi Hph Hph'.
  - left. split; [done|]. split; [|done]. by apply Forall_insert.
  - right. split; [done|]. exists i0, b0, ph0.
    assert (i ≠ i0) as Hne by (intros ->; congruence).
    split; [by rewrite list_lookup_insert_ne|]. split; [done|]. split; [|done].
    intros j t Hj. destruct (decide (j = i)) as [->|Hji].
    + intros Ht. apply list_lookup_insert_Some in Ht as [(_ & <- & _)|[? _]]; done.
    + rewrite list_lookup_insert_ne by done. by apply Hothers.
Qed.

(** The task inside the critical section is the owner. *)
Lemma owner_inv_owner st0 hist l sh ts i b ph :
  owned st0 hist l sh ts →
  ts !! i = Some (b, ph) → in_cs ph = true →
  l = true ∧
  (∀ j t, j ≠ i → ts !! j = Some t → in_cs t.2 = false) ∧
  sh = cs_done BATCH_SIZE texts b ph (serial st0 hist).
Proof.
  intros [(-> & Hall & ->)|(-> & i0 & b0 & ph0 & Hi0 & Hcs & Hothers & ->)] Hi Hph.
  - rewrite Forall_lookup in Hall. specialize (Hall _ _ Hi). simpl in Hall. congruence.
  - destruct (decide (i = i0)) as [->|Hne].
    + rewrite Hi in Hi0. by injection Hi0 as <- <-.
    + specialize (Hothers i _ Hne Hi). simpl in Hothers. congruence.
Qed.

(** The owner moves on inside the critical section. *)
Lemma owner_inv_inside st0 hist sh ts i b ph ph' :
  (∀ j t, j ≠ i → ts !! j = Some t → in_cs t.2 = false) →
  ts !! i = Some (b, ph) → in_cs ph' = true →
  sh = cs_done BATCH_SIZE texts b ph' (serial st0 hist) →
  owned st0 hist true sh (<[i:=(b, ph')]> ts).
Proof.
  intros Hothers Hi Hph' ->. right. split; [done|]. exists i, b, ph'.
  split; [apply list_lookup_insert_eq; by eapply lookup_lt_Some|].
  split; [done|]. split; [|done].
  intros j t Hji. rewrite list_lookup_insert_ne by done. by apply Hothers.
Qed.

Lemma tasks_inv_reachable st0 pending c :
  reach st0 pending c → tasks_inv BATCH_SIZE service clock df texts st0 pending c.
Proof.
  revert c. apply reachable_invariant.
  - split; [|split].
    + simpl. rewrite <-list_fmap_compose. apply list_fmap_id.
    + simpl. apply Forall_fmap, Forall_forall. intros b _. by unfold task_ok.
    + exists []. split.
      * simpl. by rewrite finished_batches_start.
      * left. split; [done|]. split; [|done].
        simpl. apply Forall_fmap, Forall_forall. by intros b _.
  - intros c c' _ (Hfst & Hok & hist & Hdone & Hown) Hstep.
    destruct Hstep as [c i b k Hi Hsem|c i b k resp Hi Hreq|c i b k e Hi Hreq Hre
                      |c i b k e Hi Hreq Hre Hstop|c i b k e Hi Hreq Hre Hstop
                      |c i b k Hi|c i b r Hi|c i b labels Hi Hfree
                      |c i b labels Hi|c i b labels Hi|c i b labels Hi
                      |c i b labels Hi];
      pose proof (Forall_lookup_1 _ _ _ _ Hok Hi) as Hti;
      unfold task_ok in Hti; cbn [fst snd] in Hti;
      unfold tasks_inv, set_task; cbn [tasks lock shared];
      (split; [by erewrite fst_insert_task|]);
      (split; [apply Forall_insert; [done|]; unfold task_ok; cbn [fst snd]|]).
    all: try (rewrite retrying_eq, Hreq in Hti; cbn [outcome] in Hti;
              rewrite ?Hre, ?Hstop in Hti; cbn [outcome] in Hti).
    all: try done.
    all: try (exists hist; (split; [by erewrite finished_insert_same|]);
              by eapply owner_inv_outside).
    + (* [labels_of] of the loop's outcome *)
      by rewrite Hti.
    + (* the lock is taken *)
      exists hist. split; [by erewrite finished_insert_same|].
      destruct Hown as [(_ & Hall & ->)|(Hl & _)]; [|congruence].
      eapply owner_inv_inside; [|done..].
      intros j t _ Hj. by eapply (Forall_lookup_1 _ _ _ _ Hall).
    + (* the statements under the lock *)
      exists hist. split; [by erewrite finished_insert_same|].
      destruct (owner_inv_owner _ _ _ _ _ _ _ _ Hown Hi eq_refl) as (Hl & Hothers & ->).
      rewrite Hl. by eapply owner_inv_inside.
    + exists hist. split; [by erewrite finished_insert_same|].
      destruct (owner_inv_owner _ _ _ _ _ _ _ _ Hown Hi eq_refl) as (Hl & Hothers & ->).
      rewrite Hl. by eapply owner_inv_inside.
    + exists hist. split; [by erewrite finished_insert_same|].
      destruct (owner_inv_owner _ _ _ _ _ _ _ _ Hown Hi eq_refl) as (Hl & Hothers & ->).
      rewrite Hl. by eapply owner_inv_inside.
    + (* the save and the release *)
      destruct (owner_inv_owner _ _ _ _ _ _ _ _ Hown Hi eq_refl) as (Hl & Hothers & ->).
      exists (hist ++ [b]). split.
      { rewrite finished_insert_done by done. rewrite <-Hdone.
        symmetry. apply Permutation_cons_append. }
      left. split; [done|]. split.
      * apply Forall_lookup. intros j t Hj.
        destruct (decide (j = i)) as [->|Hji].
        -- apply list_lookup_insert_Some in Hj as [(_ & <- & _)|[? _]]; done.
        -- rewrite list_lookup_insert_ne in Hj by done. by eapply Hothers.
      * rewrite foldl_snoc. unfold handle_batch, critical_section. simpl.
        by rewrite Hti.
Qed.

End Lock.


(** The table of a run resumed from a snapshot taken after the
    completions [saved]. *)
Lemma resumed_table {pandas : Pandas} BATCH_SIZE service clock1 clock2 clock3 df texts nb
    labels0 (completed0 : gset nat) saved order2 order f1 i1 f2 i2 f3 i3 :
  1 ≤ BATCH_SIZE →
  length texts ≤ nb * BATCH_SIZE →
  nb * BATCH_SIZE < length texts + BATCH_SIZE →
  length labels0 = length texts →
  Forall (λ b, b < nb ∧ b ∉ completed0) saved →
  order2 ≡ₚ filter (λ b, b ∉ list_to_set saved ∪ completed0) (seq 0 nb) →
  order ≡ₚ filter (λ b, b ∉ completed0) (seq 0 nb) →
  let st1 := foldl (handle_batch BATCH_SIZE service clock1 df texts)
                   (State labels0 completed0 0 f1 i1 0) saved in
  all_labels (foldl (handle_batch BATCH_SIZE service clock2 df texts)
                    (State (all_labels st1) (list_to_set saved ∪ completed0) 0 f2 i2 0)
                    order2)
  = all_labels (foldl (handle_batch BATCH_SIZE service clock3 df texts)
                      (State labels0 completed0 0 f3 i3 0) order).
Proof.
  intros HB Hup Hlow Hlen Hsaved Horder2 Horder st1.
  assert (Forall (λ b, b < nb) saved) as Hv1.
  { eapply Forall_impl; [exact Hsaved|]. by intros b [? _]. }
  assert (Forall (λ b, b < nb) order2) as Hv2.
  { rewrite Horder2. apply Forall_forall.
    intros b [_ Hb%elem_of_seq]%list_elem_of_filter. lia. }
  assert (Forall (λ b, b < nb) order) as Hv.
  { rewrite Horder. apply Forall_forall.
    intros b [_ Hb%elem_of_seq]%list_elem_of_filter. lia. }
  assert (length (all_labels st1) = length texts) as Hlen1
    by by apply (serial_length _ _ _ _ _ nb).
  apply (table_ext BATCH_SIZE texts nb Hup Hlow); [done| | |].
  - by apply (serial_length _ _ _ _ _ nb).
  - by apply (serial_length _ _ _ _ _ nb).
  - intros b Hb. rewrite !(serial_seg _ _ _ _ _ nb) by done.
    cbn [all_labels]. unfold st1. rewrite (serial_seg _ _ _ _ _ nb) by done.
    cbn [all_labels].
    assert (b ∈ order2 ↔ (b ∉ saved) ∧ (b ∉ completed0)) as H2.
    { rewrite Horder2, list_elem_of_filter, elem_of_seq. set_solver by lia. }
    assert (b ∈ order ↔ b ∉ completed0) as H3.
    { rewrite Horder, list_elem_of_filter, elem_of_seq. intuition lia. }
    assert (b ∈ saved → b ∉ completed0) as H1.
    { intros Hin. by apply (proj1 (Forall_forall _ _) Hsaved). }
    repeat case_decide; try done; tauto.
Qed.



(** * The claims *)

(** C1.  In every state the tasks can reach, the tasks whose request is
    out are at most [MAX_CONCURRENCY], and they are exactly the holders of
    the permits that are out: a task waiting between attempts, validating
    or reconciling a response, or recording its result holds none. *)
Theorem concurrency_bound {pandas : Pandas} BATCH_SIZE MAX_CONCURRENCY service clock df texts
    st pending c :
  reachable BATCH_SIZE MAX_CONCURRENCY service clock df texts st pending c →
  count_phase in_flight (tasks c) ≤ MAX_CONCURRENCY ∧
  count_phase in_flight (tasks c) = MAX_CONCURRENCY - sem c ∧
  sem c ≤ MAX_CONCURRENCY.
Proof.
  intros Hc. apply permits_invariant in Hc. lia.
Qed.

(** Two tasks and one permit: after the task of batch 0 has passed the
    gate, one request is out and no permit is left. *)
Lemma concurrency_bound_witness :
  let c := Config 0 false demo_state [(0, InFlight 1); (1, AtGate 1)] in
  reachable (pandas := lenient_pandas) 2 1 demo_service demo_clock demo_df demo_texts demo_state
      [0; 1] c ∧
  count_phase in_flight (tasks c) ≤ 1.
Proof.
  intros c.
  assert (reachable (pandas := lenient_pandas) 2 1 demo_service demo_clock demo_df demo_texts
      demo_state [0; 1] c)
    as Hc.
  { eapply rtc_l; [|apply rtc_refl].
    apply (step_acquire 2 demo_service demo_clock demo_df demo_texts
             (start 1 demo_state [0; 1]) 0 0 1); [reflexivity|simpl; lia]. }
  split; [exact Hc|].
  exact (proj1 (concurrency_bound (pandas := lenient_pandas) 2 1 demo_service demo_clock demo_df
      demo_texts
                  demo_state [0; 1] c Hc)).
Defined.

(** C2, as the specification states it, fails: a response of the right
    length in which both elements echo id 0, so that id 1 is missing and
    id 0 is duplicated, is not rejected.  The client returns the two
    annotations in the order of the response. *)
Lemma duplicate_ids_accepted :
  let data_list :=
    [JObj [("id", JNum 0); ("food_score", JNum 2)];
     JObj [("id", JNum 0); ("food_score", JNum (-1))]] in
  ¬ (id_value <$> data_list ≡ₚ Z.of_nat <$> seq 0 2) ∧
  label_batch_async (λ _ _, Ok (Text (Some (JArr data_list)))) ["tasty"; "cold"]
  = ([JObj [("food_score", JNum 2)]; JObj [("food_score", JNum (-1))]],
     CallTrace (Ok (Text (Some (JArr data_list)))) 1 []).
Proof.
  split; [apply counterexample_ids_not_a_match|reflexivity].
Qed.

(** C2, amended.  A fresh run whose tasks complete in any order holds,
    when [gather] is over, for every batch what [label_batch_async] returned
    for it in the rows of that batch; this table is what the run writes to
    both output files if it returns, which it does when pandas builds and
    writes the table, while no output is written when [pd.DataFrame] raises
    on it.  When the response of a batch is a list of the right length
    whose elements are dicts with integer ids, a missing id counting as 0,
    the client accepts it without checking the ids against [0 .. N-1]: it
    returns the elements in ascending order of id, equal ids in the order
    of the response, each without its id.  When the ids are [0 .. N-1] in
    some order, the element that echoed local id [j] is the row
    [k * BATCH_SIZE + j] of the table. *)
Theorem reconciliation_by_sort {pandas : Pandas} BATCH_SIZE TEXT_COL service clock
    fs df texts nb order :
  path_input fs = Some df →
  df_column TEXT_COL df = Some texts →
  path_checkpoint fs = FileAbsent →
  num_batches (length texts) BATCH_SIZE = Ok nb →
  order ≡ₚ seq 0 nb →
  ∃ table,
    all_labels <$> gathered BATCH_SIZE TEXT_COL service clock fs order = Some table ∧
    length table = length texts ∧
    (let r := main_async BATCH_SIZE TEXT_COL service clock fs order None in
     (status r = Returned →
      path_output_parquet (disk r) = Some (df, table) ∧
      path_output_csv (disk r) = Some (df, table)) ∧
     (pd_DataFrame table = Ok () → to_parquet df table = Ok () →
      to_csv df table = Ok () → length texts ≠ 0 → status r = Returned) ∧
     (∀ e, pd_DataFrame table = Err e →
        status r = Raised e ∧
        path_output_parquet (disk r) = path_output_parquet fs ∧
        path_output_csv (disk r) = path_output_csv fs)) ∧
    ∀ k, k < nb →
      let returned := labels_for BATCH_SIZE service texts k in
      slice (batch_start BATCH_SIZE k) (batch_end BATCH_SIZE (length texts) k) table
        = returned.1 ∧
      ∀ data_list,
        outcome returned.2 = Ok (Text (Some (JArr data_list))) →
        length data_list = length (batch_texts BATCH_SIZE texts k) →
        Forall has_int_id data_list →
        (∃ ordered,
           ordered ≡ₚ data_list ∧
           StronglySorted (λ a b, (id_value a ≤ id_value b)%Z) ordered ∧
           (∀ w, filter (λ d, id_value d = w) ordered
                 = filter (λ d, id_value d = w) data_list) ∧
           Forall2 (λ d d', pop_id d = Ok d') ordered returned.1) ∧
        (id_value <$> data_list ≡ₚ Z.of_nat <$> seq 0 (length data_list) →
         ∀ i d, data_list !! i = Some d →
           ∃ d', pop_id d = Ok d' ∧
                 table !! (batch_start BATCH_SIZE k + Z.to_nat (id_value d)) = Some d').
Proof.
  intros Hin Hcol Hck Hnb Horder.
  assert (1 ≤ BATCH_SIZE) as HB.
  { destruct BATCH_SIZE; [|lia]. by vm_compute in Hnb. }
  destruct (num_batches_bounds (length texts) BATCH_SIZE HB) as (nb' & Hnb' & Hup & Hlow).
  rewrite Hnb in Hnb'. injection Hnb' as <-.
  assert (Forall (λ b, b < nb) order) as Hvalid.
  { rewrite Horder. apply Forall_seq. intros; lia. }
  assert (seed (length texts) nb (load_checkpoint (path_checkpoint fs))
          = Seeded (replicate (length texts) JNull) ∅ (seq 0 nb)) as Hseed
    by by rewrite Hck.
  set (st0 := State (replicate (length texts) JNull) ∅ 0
                    (path_checkpoint fs) (path_intermediate fs) 0).
  set (table := all_labels (foldl (handle_batch BATCH_SIZE service clock df texts) st0 order)).
  assert (length (all_labels st0) = length texts) as Hlen0 by apply length_replicate.
  exists table. split; [|split; [|split]].
  - by erewrite gathered_eq.
  - by apply (serial_length _ _ _ _ _ nb).
  - intros r. unfold r.
    rewrite (main_async_dispatch _ _ _ _ _ _ _ _ _ _ _ _ None Hin Hcol Hnb Hseed).
    fold st0. split; [|split].
    + intros Hret. by rewrite (final_save_returned _ _ _ _ _ Hret).
    + intros H1 H2 H3 Hn. by apply final_save_returns.
    + intros e He. by rewrite (final_save_no_frame _ _ _ _ _ _ He).
  - intros k Hk returned.
    assert (slice (batch_start BATCH_SIZE k) (batch_end BATCH_SIZE (length texts) k) table
            = returned.1) as Hseg.
    { unfold table. rewrite (serial_seg _ _ _ _ _ nb) by done.
      rewrite decide_True; [done|]. rewrite Horder. apply elem_of_seq. lia. }
    split; [done|].
    intros data_list Hresp Hlen Hids.
    destruct (read_labels_sorted _ data_list Hlen Hids)
      as (ordered & out & Hout & Hperm & Hsort & Hstable & Hpop).
    assert (returned.1 = out) as Hret.
    { unfold returned, labels_for, label_batch_async in *. cbn [fst snd] in *.
      rewrite Hresp. unfold labels_of. cbn [bind]. by rewrite Hout. }
    split.
    + exists ordered. by rewrite Hret.
    + intros Hmatch i d Hd.
      rewrite <-Hlen in Hout.
      destruct (read_labels_position _ data_list out eq_refl Hids Hmatch Hout i d Hd)
        as (d' & Hd' & Hpos).
      exists d'. split; [done|].
      rewrite <-Hret, <-Hseg, lookup_slice in Hpos.
      by case_decide.
Qed.

Lemma reconciliation_by_sort_witness :
  ∃ table,
    path_output_parquet
      (disk (main_async (pandas := lenient_pandas) 2 "cleaned_text"
               demo_service demo_clock demo_files [1; 0] None))
    = Some (demo_df, table) ∧
    table !! 1 = Some (JObj [("food_score", JNum 10)]).
Proof.
  destruct (reconciliation_by_sort (pandas := lenient_pandas) 2 "cleaned_text"
              demo_service demo_clock demo_files demo_df demo_texts 2 [1; 0])
    as (table & _ & _ & (Hout & _) & Hrows); [reflexivity..| |].
  - apply Permutation_swap.
  - exists table. split; [exact (proj1 (Hout eq_refl))|].
    destruct (Hrows 0) as (_ & Hrec); [lia|].
    destruct (Hrec (demo_annotation <$> [(1, "cold fries"); (0, "good soup")]))
      as (_ & Hpos); [reflexivity|reflexivity| |].
    + repeat constructor; by eexists.
    + destruct (Hpos (Permutation_swap _ _ _) 0 (demo_annotation (1, "cold fries")) eq_refl)
        as (d' & Hd' & Hat).
      injection Hd' as <-. exact Hat.
Defined.

(** C3, as the specification states it, fails: the delay does not double
    from the first retry on.  Against a service that answers every request
    with a rate-limit error the client sleeps 2, 2, 4 and 8 seconds: the
    second delay is the first once more, not its double. *)
Lemma second_delay_does_not_double :
  let service : service_t := λ _ _, Err RateLimitError in
  sleeps (label_batch_async service ["tasty"]).2 = [2; 2; 4; 8] ∧
  wait_exponential 1 2 60 2 ≠ 2 * wait_exponential 1 2 60 1.
Proof. split; [reflexivity|discriminate]. Qed.

(** C3, amended.  Whatever the service does, [call_api] makes between one
    and five requests; a request is repeated only after a rate-limit,
    timeout or connection error; the sleep after attempt [k] is
    [max(2, min(2 ** (k-1), 60))] seconds: 2 after the first attempt and 2
    again after the second, never under 2 nor over 60, and from the second
    attempt on twice the one before, capped at 60.  When all five attempts
    end in such errors, [label_batch_async] has slept 2, 2, 4 and 8
    seconds, raises nothing and returns one [None] per record of the batch;
    in the table this batch's rows are [None] and every other completed
    batch has its own labels. *)
Theorem retry_then_failure {pandas : Pandas} BATCH_SIZE service clock df texts nb st0 order b :
  1 ≤ BATCH_SIZE →
  num_batches (length texts) BATCH_SIZE = Ok nb →
  length (all_labels st0) = length texts →
  Forall (λ b', b' < nb) order →
  b ∈ order →
  let fn := request BATCH_SIZE service texts b in
  let t := (labels_for BATCH_SIZE service texts b).2 in
  let table :=
    all_labels (foldl (handle_batch BATCH_SIZE service clock df texts) st0 order) in
  (1 ≤ requests t ≤ 5 ∧
   sleeps t = wait_exponential 1 2 60 <$> seq 1 (requests t - 1) ∧
   (∀ k, 1 ≤ k < requests t → ∃ e, fn k = Err e ∧ e ∈ transient_errors) ∧
   wait_exponential 1 2 60 1 = 2 ∧
   wait_exponential 1 2 60 2 = 2 ∧
   (∀ k, 2 ≤ wait_exponential 1 2 60 k ≤ 60 ∧
         wait_exponential 1 2 60 k = 2 `max` (2 ^ (k - 1) `min` 60)) ∧
   (∀ k, 2 ≤ k →
         wait_exponential 1 2 60 (S k) = (2 * wait_exponential 1 2 60 k) `min` 60)) ∧
  ((∀ k, 1 ≤ k ≤ 5 → ∃ e, fn k = Err e ∧ e ∈ transient_errors) →
   labels_for BATCH_SIZE service texts b
     = (replicate (length (batch_texts BATCH_SIZE texts b)) JNull,
        CallTrace (Err RetryError) 5 [2; 2; 4; 8]) ∧
   slice (batch_start BATCH_SIZE b) (batch_end BATCH_SIZE (length texts) b) table
     = replicate (length (batch_texts BATCH_SIZE texts b)) JNull ∧
   ∀ b', b' ∈ order → b' ≠ b →
     slice (batch_start BATCH_SIZE b') (batch_end BATCH_SIZE (length texts) b') table
     = (labels_for BATCH_SIZE service texts b').1).
Proof.
  intros HB Hnb Hlen Horder Hb fn t table.
  destruct (num_batches_bounds (length texts) BATCH_SIZE HB) as (nb' & Hnb' & Hup & Hlow).
  rewrite Hnb in Hnb'. injection Hnb' as <-.
  split.
  - destruct (retrying_requests (retry_if_exception_type transient_errors)
                (wait_exponential 1 2 60) 5 fn 1) as (H1 & H2 & H3 & H4).
    change (retrying _ _ 5 fn 1) with t in *.
    split; [lia|]. split; [done|]. split.
    { intros k Hk. destruct (H4 k) as (e & He & Hre); [lia|].
      exists e. split; [done|]. by apply transient_retry. }
    split; [done|]. split; [done|]. split; [apply wait_exponential_bounds|].
    apply wait_exponential_doubles.
  - intros Hfn.
    assert (labels_for BATCH_SIZE service texts b
            = (replicate (length (batch_texts BATCH_SIZE texts b)) JNull,
               CallTrace (Err RetryError) 5 [2; 2; 4; 8])) as Hlabels.
    { unfold labels_for, label_batch_async.
      change (service (reviews_payload (batch_texts BATCH_SIZE texts b))) with fn.
      rewrite (call_api_exhausted fn Hfn). done. }
    split; [done|].
    unfold table. split.
    + rewrite (serial_seg _ _ _ _ _ nb) by done.
      rewrite decide_True by done. by rewrite Hlabels.
    + intros b' Hb' _. rewrite (serial_seg _ _ _ _ _ nb) by done.
      by rewrite decide_True.
Qed.

Lemma retry_then_failure_witness :
  let service : service_t := λ _ _, Err APITimeoutError in
  labels_for 2 service demo_texts 1
    = ([JNull], CallTrace (Err RetryError) 5 [2; 2; 4; 8]) ∧
  slice 2 3 (all_labels (foldl (handle_batch (pandas := lenient_pandas) 2 service demo_clock
      demo_df demo_texts)
                               demo_state [1; 0]))
    = [JNull].
Proof.
  intros service.
  destruct (retry_then_failure (pandas := lenient_pandas) 2 service demo_clock demo_df
      demo_texts 2 demo_state [1; 0] 1)
    as (_ & Hfail); [lia|reflexivity|reflexivity| | |].
  - repeat constructor.
  - set_solver.
  - destruct Hfail as (H1 & H2 & _).
    + intros k _. exists APITimeoutError. split; [reflexivity|]. set_solver.
    + split; [exact H1|exact H2].
Defined.

(** C4.  When the first request of a batch returns a completion that is
    not JSON, or not a list, or a list of another length than the batch,
    that request is the only one: [label_batch_async] sleeps and retries
    nothing and returns one [None] per record. *)
Theorem malformed_response_not_retried service texts resp :
  service (reviews_payload texts) 1 = Ok resp →
  malformed (length texts) resp = true →
  label_batch_async service texts
  = (replicate (length texts) JNull, CallTrace (Ok resp) 1 []).
Proof.
  intros Hfirst [e He]%read_labels_malformed.
  unfold label_batch_async, call_api. rewrite retrying_eq, Hfirst.
  cbn [outcome]. by erewrite labels_of_read_error.
Qed.

Lemma malformed_response_not_retried_witness :
  let short := Text (Some (JArr [JObj [("id", JNum 0)]])) in
  label_batch_async (λ _ _, Ok short) ["tasty"; "cold"]
  = ([JNull; JNull], CallTrace (Ok short) 1 []).
Proof.
  intros short.
  apply (malformed_response_not_retried (λ _ _, Ok short) ["tasty"; "cold"] short);
    reflexivity.
Defined.










(** C9, as the specification states it, fails on an empty source.  A
    table with the text column and no row is not rejected: [main_async]
    goes on to write both output files and only then stops, with the
    [ZeroDivisionError] of its summary. *)
Lemma empty_source_not_rejected :
  let service : service_t := λ _ _, Err APIError in
  let clock : nat → string := λ _, "2025-01-01T00:00:00" in
  let df : dataframe := [("review_id", []); ("cleaned_text", [])] in
  let fs := Files (Some df) FileAbsent None None None in
  let r := main_async (pandas := lenient_pandas) 50 "cleaned_text" service clock fs [] None in
  pending_of 50 "cleaned_text" fs = Some [] ∧
  status r = Raised ZeroDivisionError ∧
  path_output_parquet (disk r) = Some (df, []) ∧
  path_output_csv (disk r) = Some (df, []).
Proof. cbv zeta. repeat split; reflexivity. Qed.

(** C9, amended.  When the input file is missing or has no column named
    [TEXT_COL], [main_async] exits with status 1 whatever the schedule:
    it makes no request and leaves every file as it was.  A source with
    the column and no row is not rejected; it has no pending batch, and
    with no batch completing no request is made. *)
Theorem missing_input_exits {pandas : Pandas} BATCH_SIZE TEXT_COL service clock fs order stop :
  ((path_input fs = None ∨
    ∃ df, path_input fs = Some df ∧ df_column TEXT_COL df = None) →
   main_async BATCH_SIZE TEXT_COL service clock fs order stop = Run (Exited 1) fs 0) ∧
  (∀ df, path_input fs = Some df → df_column TEXT_COL df = Some [] →
     (∀ pending, pending_of BATCH_SIZE TEXT_COL fs = Some pending → pending = []) ∧
     requests_made (main_async BATCH_SIZE TEXT_COL service clock fs [] stop) = 0).
Proof.
  split.
  - intros [Hin|(df & Hin & Hcol)]; unfold main_async; rewrite Hin; [done|].
    by rewrite Hcol.
  - intros df Hin Hcol. split.
    + intros pending. unfold pending_of. rewrite Hin. cbn [mbind option_bind].
      rewrite Hcol. cbn [mbind option_bind length].
      destruct (num_batches 0 BATCH_SIZE) as [nb|] eqn:Hnb; [|done].
      destruct (seed 0 nb _) as [l0 c0 p0| |] eqn:Hseed; [|done..].
      intros [= <-]. apply seed_pending in Hseed as ->.
      assert (nb = 0) as ->; [|done].
      destruct BATCH_SIZE as [|B]; [by vm_compute in Hnb|].
      destruct (num_batches_bounds 0 (S B)) as (nb' & Hnb' & Hup & Hlow); [lia|].
      rewrite Hnb in Hnb'. injection Hnb' as <-. nia.
    + unfold main_async. rewrite Hin, Hcol.
      destruct (num_batches _ _); [|done].
      destruct (seed _ _ _); [|done..].
      destruct stop as [[|e|]|]; [done..|]. apply final_save_requests.
Qed.

(** The table lacks the column [text]. *)
Lemma missing_input_exits_witness :
  main_async (pandas := lenient_pandas) 2 "text" demo_service demo_clock demo_files [0; 1] None
  = Run (Exited 1) demo_files 0.
Proof.
  apply (proj1 (missing_input_exits (pandas := lenient_pandas) 2 "text" demo_service demo_clock
      demo_files [0; 1] None)).
  right. exists demo_df. split; reflexivity.
Defined.



(** * Further properties of the code *)

(** ** The retry loop *)

Lemma retrying_first_decisive fn m d k :
  k + d = m → m ≤ 5 →
  (∀ i, k ≤ i < m → ∃ e, fn i = Err e ∧ e ∈ transient_errors) →
  match fn m with Ok _ => True | Err e => e ∉ transient_errors end →
  retrying (retry_if_exception_type transient_errors) (wait_exponential 1 2 60) 5 fn k
  = CallTrace (fn m) (S d) (wait_exponential 1 2 60 <$> seq k d).
Proof.
  revert k. induction d as [|d IH]; intros k Hkd Hm Hbefore Hlast.
  - replace k with m in * by lia. rewrite retrying_eq.
    destruct (fn m) as [resp|e]; [done|].
    destruct (retry_if_exception_type transient_errors e) eqn:Hre; [|done].
    by apply transient_retry in Hre.
  - rewrite retrying_eq.
    destruct (Hbefore k) as (e & -> & ->%transient_retry); [lia|].
    unfold stop_after_attempt. rewrite bool_decide_eq_false_2 by lia.
    rewrite (IH (S k)); [done|lia|lia| |done].
    intros i Hi. apply Hbefore. lia.
Qed.

(** X1.  [call_api] returns the first reply that is not a rate-limit,
    timeout or connection error, provided it comes within five attempts:
    a response is returned and any other exception re-raised as it is,
    after exactly that many requests and the sleeps of the attempts before
    it. *)
Theorem call_api_first_decisive fn m :
  1 ≤ m ≤ 5 →
  (∀ k, 1 ≤ k < m → ∃ e, fn k = Err e ∧ e ∈ transient_errors) →
  match fn m with Ok _ => True | Err e => e ∉ transient_errors end →
  call_api fn = CallTrace (fn m) m (wait_exponential 1 2 60 <$> seq 1 (m - 1)).
Proof.
  intros Hm Hbefore Hlast. unfold call_api.
  rewrite (retrying_first_decisive fn m (m - 1) 1); [|lia|lia|done|done].
  f_equal. lia.
Qed.

Lemma call_api_first_decisive_witness :
  call_api (λ k, match k with 1 | 2 => Err APIConnectionError | _ => Err APIError end)
  = CallTrace (Err APIError) 3 [2; 2].
Proof.
  apply (call_api_first_decisive
           (λ k, match k with 1 | 2 => Err APIConnectionError | _ => Err APIError end) 3).
  - lia.
  - intros k Hk. exists APIConnectionError.
    destruct k as [|[|[|k]]]; [lia| | |lia]; (split; [reflexivity|set_solver]).
  - simpl. set_solver.
Defined.

(** X2.  Whatever the service does, one batch costs at most five requests
    and at most 16 seconds of backoff sleep in all. *)
Theorem batch_cost_bounded service texts :
  let t := (label_batch_async service texts).2 in
  1 ≤ requests t ≤ 5 ∧
  length (sleeps t) = requests t - 1 ∧
  sum_list (sleeps t) ≤ 16.
Proof.
  intros t.
  destruct (retrying_requests (retry_if_exception_type transient_errors)
              (wait_exponential 1 2 60) 5
              (service (reviews_payload texts)) 1) as (H1 & H2 & H3 & _).
  change (retrying _ _ 5 _ 1) with t in *.
  split; [lia|]. rewrite H3, length_fmap, length_seq. split; [done|].
  assert (requests t - 1 ≤ 4) as Hr by lia.
  destruct (requests t - 1) as [|[|[|[|[|r]]]]]; simpl; lia.
Qed.



(** ** What a batch returns *)

Lemma assoc_remove_key_same k m : assoc k (remove_key k m) = None.
Proof.
  unfold remove_key. induction m as [|[k' v] m IH]; [done|].
  rewrite filter_cons. simpl. case_decide as Hk; [|done].
  simpl. destruct (String.eqb_spec k k'); [congruence|done].
Qed.

Lemma assoc_remove_key_other k k' m :
  k' ≠ k → assoc k' (remove_key k m) = assoc k' m.
Proof.
  intros Hne. unfold remove_key. induction m as [|[k0 v] m IH]; [done|].
  rewrite filter_cons. simpl. case_decide as Hk; simpl.
  - by rewrite IH.
  - rewrite IH. destruct (String.eqb_spec k' k0); [congruence|done].
Qed.

Lemma insert_sorted_perm {A} k (x : A) l r :
  insert_sorted k x l = Ok r → r ≡ₚ (k, x) :: l.
Proof.
  revert r. induction l as [|[k' y] l IH]; intros r; simpl.
  - by intros [= <-].
  - destruct (py_lt k' k) as [[]|]; [| |done].
    + destruct (insert_sorted k x l) as [r'|]; [|done]. simpl.
      intros [= <-]. rewrite (IH r' eq_refl). apply Permutation_swap.
    + by intros [= <-].
Qed.

Lemma sorted_keyed_perm {A} (l r : list (json * A)) :
  sorted_keyed l = Ok r → r ≡ₚ l.
Proof.
  revert r. induction l as [|[k x] l IH]; intros r; simpl.
  - by intros [= <-].
  - destruct (sorted_keyed l) as [r'|]; [|done]. simpl.
    intros ->%insert_sorted_perm. by rewrite (IH r' eq_refl).
Qed.

Lemma traverse_keyed_snd {A} (key : A → result json) l keyed :
  traverse (λ x, k ←! key x; Ok (k, x)) l = Ok keyed → keyed.*2 = l.
Proof.
  revert keyed. induction l as [|x l IH]; intros keyed; simpl.
  - by intros [= <-].
  - destruct (key x) as [k|]; [|done]. simpl.
    destruct (traverse _ l) as [ys|]; [|done]. simpl.
    intros [= <-]. simpl. f_equal. by apply IH.
Qed.

Lemma sorted_perm {A} (key : A → result json) l r :
  sorted key l = Ok r → r ≡ₚ l.
Proof.
  unfold sorted.
  destruct (traverse _ l) as [keyed|] eqn:Hk; [|done]. simpl.
  destruct (sorted_keyed keyed) as [r'|] eqn:Hr; [|done]. simpl.
  intros [= <-]. apply sorted_keyed_perm in Hr. rewrite Hr.
  by rewrite (traverse_keyed_snd _ _ _ Hk).
Qed.

(** An accepted response: every element is a dict, and what is returned
    is the same dicts in sorted order without their [id]. *)
Lemma read_labels_kept n data_list out :
  read_labels n (Text (Some (JArr data_list))) = Ok out →
  length data_list = n ∧
  ∃ ordered,
    ordered ≡ₚ data_list ∧
    Forall2 (λ d d', ∃ m, d = JObj m ∧ d' = JObj (remove_key "id" m)) ordered out.
Proof.
  unfold read_labels. case_bool_decide as Hn; [done|].
  destruct (sorted get_id data_list) as [ordered|] eqn:Hs; [|done]. simpl.
  intros Hout. split; [by destruct (decide (length data_list = n))|].
  exists ordered. split; [by eapply sorted_perm|].
  apply traverse_Forall2 in Hout.
  eapply Forall2_impl; [exact Hout|].
  intros d d' Hd. destruct d; try done. injection Hd as <-. eauto.
Qed.

Lemma labels_of_cases n r :
  labels_of n r = replicate n JNull ∨
  ∃ resp, r = Ok resp ∧ read_labels n resp = Ok (labels_of n r).
Proof.
  unfold labels_of. destruct r as [resp|e]; simpl.
  - destruct (read_labels n resp) as [out|e] eqn:Hr.
    + right. eauto.
    + left. by destruct e.
  - left. by destruct e.
Qed.


(** X5.  When the decisive reply is a JSON list, the batch is either
    rejected as a whole or kept as a whole: the labels are the elements of
    the response in some order, each without its [id] and with every other
    field as the service sent it. *)
Theorem accepted_response_is_kept service texts data_list :
  outcome (label_batch_async service texts).2 = Ok (Text (Some (JArr data_list))) →
  let labels := (label_batch_async service texts).1 in
  labels = replicate (length texts) JNull ∨
  (length data_list = length texts ∧
   ∃ ordered,
     ordered ≡ₚ data_list ∧
     Forall2 (λ d d', ∃ m m',
                d = JObj m ∧ d' = JObj m' ∧ assoc "id" m' = None ∧
                ∀ key, key ≠ "id" → assoc key m' = assoc key m)
             ordered labels).
Proof.
  intros Hout labels. unfold labels, label_batch_async in *. cbn [fst snd] in *.
  destruct (labels_of_cases (length texts)
              (outcome (call_api (service (reviews_payload texts)))))
    as [Hnone|(resp & Hr & Hread)]; [by left|right].
  rewrite Hout in Hr. injection Hr as <-.
  destruct (read_labels_kept _ _ _ Hread) as (Hlen & ordered & Hperm & Hpop).
  split; [done|]. exists ordered. split; [done|].
  eapply Forall2_impl; [exact Hpop|].
  intros d d' (m & -> & ->). exists m, (remove_key "id" m).
  split_and!; [done|done|apply assoc_remove_key_same|].
  intros key Hkey. by apply assoc_remove_key_other.
Qed.

Lemma accepted_response_is_kept_witness :
  let labels := (label_batch_async demo_service (take 2 demo_texts)).1 in
  labels = replicate 2 JNull ∨
  (length (demo_annotation <$> reverse (reviews_payload (take 2 demo_texts))) = 2 ∧
   ∃ ordered,
     ordered ≡ₚ demo_annotation <$> reverse (reviews_payload (take 2 demo_texts)) ∧
     Forall2 (λ d d', ∃ m m',
                d = JObj m ∧ d' = JObj m' ∧ assoc "id" m' = None ∧
                ∀ key, key ≠ "id" → assoc key m' = assoc key m)
             ordered labels).
Proof.
  apply (accepted_response_is_kept demo_service (take 2 demo_texts)
           (demo_annotation <$> reverse (reviews_payload (take 2 demo_texts)))).
  reflexivity.
Defined.

(** ** The payload and the echoed ids *)

Lemma lookup_reviews_payload texts i :
  reviews_payload texts !! i = (λ t, (i, t)) <$> texts !! i.
Proof. unfold reviews_payload. by rewrite list_lookup_imap. Qed.

Lemma length_reviews_payload texts : length (reviews_payload texts) = length texts.
Proof. unfold reviews_payload. by rewrite length_imap. Qed.

Lemma fst_reviews_payload texts : (reviews_payload texts).*1 = seq 0 (length texts).
Proof.
  apply list_eq. intros i.
  rewrite list_lookup_fmap, lookup_reviews_payload.
  destruct (texts !! i) as [t|] eqn:Ht; simpl.
  - apply lookup_lt_Some in Ht as Hlt. symmetry. by apply lookup_seq.
  - apply lookup_ge_None in Ht. symmetry. apply lookup_ge_None.
    by rewrite length_seq.
Qed.

(** X6.  The payload numbers the texts of a batch from 0 in input order.
    When the service, after fewer than five transient errors, answers every
    item of the payload with a dict that echoes the item's id, in whatever
    order, the label at position [i] is the answer to the [i]-th text,
    without its id. *)
Theorem echoed_ids_restore_input_order service texts
    (answer : nat * string → list (string * json)) m response :
  let fn := service (reviews_payload texts) in
  1 ≤ m ≤ 5 →
  (∀ k, 1 ≤ k < m → ∃ e, fn k = Err e ∧ e ∈ transient_errors) →
  fn m = Ok (Text (Some (JArr response))) →
  (∀ it, assoc "id" (answer it) = Some (JNum (Z.of_nat it.1))) →
  response ≡ₚ JObj ∘ answer <$> reviews_payload texts →
  (reviews_payload texts).*1 = seq 0 (length texts) ∧
  (reviews_payload texts).*2 = texts ∧
  ∀ i t, texts !! i = Some t →
    (label_batch_async service texts).1 !! i
    = Some (JObj (remove_key "id" (answer (i, t)))).
Proof.
  intros fn Hm Hbefore Hat Hecho Hperm.
  split; [apply fst_reviews_payload|]. split.
  { apply list_eq. intros i. rewrite list_lookup_fmap, lookup_reviews_payload.
    by destruct (texts !! i). }
  intros i t Ht.
  assert (outcome (call_api fn) = Ok (Text (Some (JArr response)))) as Hout.
  { unfold call_api.
    rewrite (retrying_first_decisive fn m (m - 1) 1); [done|lia|lia| |by rewrite Hat].
    intros k Hk. apply Hbefore. lia. }
  assert (∀ it, id_value (JObj (answer it)) = Z.of_nat it.1) as Hid.
  { intros it. unfold id_value, get_id. by rewrite Hecho. }
  assert (length response = length texts) as Hlen.
  { by rewrite Hperm, length_fmap, length_reviews_payload. }
  assert (Forall has_int_id response) as Hids.
  { rewrite Hperm. apply Forall_fmap, Forall_forall. intros it _.
    exists (Z.of_nat it.1). unfold get_id. simpl. by rewrite Hecho. }
  assert (id_value <$> response ≡ₚ Z.of_nat <$> seq 0 (length texts)) as Hmatch.
  { rewrite Hperm, <-fst_reviews_payload, <-!list_fmap_compose.
    erewrite list_fmap_ext; [done|]. intros j it _. apply Hid. }
  destruct (read_labels_sorted _ response Hlen Hids) as (ordered & out & Hread & _).
  assert (JObj (answer (i, t)) ∈ response) as Hin.
  { rewrite Hperm. apply list_elem_of_fmap. exists (i, t). split; [done|].
    apply list_elem_of_lookup. exists i. by rewrite lookup_reviews_payload, Ht. }
  apply list_elem_of_lookup in Hin as [j Hj].
  destruct (read_labels_position _ response out Hlen Hids Hmatch Hread j _ Hj)
    as (d' & Hd' & Hpos).
  rewrite Hid, Nat2Z.id in Hpos. injection Hd' as <-.
  unfold label_batch_async. cbn [fst]. fold fn. rewrite Hout.
  unfold labels_of. cbn [bind]. by rewrite Hread.
Qed.

Lemma echoed_ids_restore_input_order_witness :
  (label_batch_async demo_service (take 2 demo_texts)).1 !! 1
  = Some (JObj [("food_score", JNum 10)]).
Proof.
  refine (proj2 (proj2 (echoed_ids_restore_input_order demo_service (take 2 demo_texts)
            (λ it, [("id", JNum (Z.of_nat it.1));
                    ("food_score", JNum (Z.of_nat (String.length it.2)))])
            2 (demo_annotation <$> reverse (reviews_payload (take 2 demo_texts)))
            _ _ _ _ _)) 1 "cold fries" _).
  - lia.
  - intros k Hk. assert (k = 1) as -> by lia.
    exists RateLimitError. split; [reflexivity|]. apply list_elem_of_here.
  - reflexivity.
  - intros it. reflexivity.
  - apply Permutation_swap.
  - reflexivity.
Defined.

(** ** Checkpoint files *)

Lemma load_checkpoint_dict f checkpoint :
  load_checkpoint f = Some checkpoint →
  f = FileText (Some checkpoint) ∧
  ∃ m v, checkpoint = JObj m ∧ assoc "last_batch" m = Some v ∧
         ((∃ z, v = JNum z) ∨ (∃ b, v = JBool b)).
Proof.
  unfold load_checkpoint, read_checkpoint.
  destruct f as [| |[ck|]]; try done. cbn [file_exists].
  destruct ck as [| | | | |m]; try done. cbn [py_getitem].
  destruct (assoc "last_batch" m) as [v|] eqn:Hv; [|done]. cbn [bind].
  destruct v; try done; cbn [py_succ bind]; intros [= <-];
    (split; [done|]); eexists _, _; (split; [done|]); (split; [done|]); eauto.
Qed.

(** X7.  [load_checkpoint] returns a checkpoint exactly when the file
    holds a JSON dict whose [last_batch] entry is a number (or a boolean),
    and then returns that dict as it is: neither [labels] nor
    [completed_batches] is looked at. *)
Theorem load_checkpoint_accepts f checkpoint :
  load_checkpoint f = Some checkpoint ↔
  f = FileText (Some checkpoint) ∧
  ∃ m v, checkpoint = JObj m ∧ assoc "last_batch" m = Some v ∧
         ((∃ z, v = JNum z) ∨ (∃ b, v = JBool b)).
Proof.
  split; [apply load_checkpoint_dict|].
  intros (-> & m & v & -> & Hv & [[z ->]|[b ->]]);
    unfold load_checkpoint, read_checkpoint; cbn [file_exists py_getitem];
    by rewrite Hv.
Qed.


(** X9.  A checkpoint that [load_checkpoint] accepts but that has no
    [labels] entry stops the run with a [KeyError] before any request is
    made and before any file is written. *)
Theorem checkpoint_without_labels_raises {pandas : Pandas} BATCH_SIZE TEXT_COL service clock
    fs df texts m order stop :
  path_input fs = Some df →
  df_column TEXT_COL df = Some texts →
  1 ≤ BATCH_SIZE →
  load_checkpoint (path_checkpoint fs) = Some (JObj m) →
  assoc "labels" m = None →
  main_async BATCH_SIZE TEXT_COL service clock fs order stop = Run (Raised KeyError) fs 0.
Proof.
  intros Hin Hcol HB Hload Hlabels.
  destruct (num_batches_bounds (length texts) BATCH_SIZE HB) as (nb & Hnb & _).
  unfold main_async. rewrite Hin, Hcol, Hnb, Hload.
  apply load_checkpoint_dict in Hload as (_ & m' & v & [= <-] & Hv & _).
  unfold seed. cbn [truthy py_getitem].
  rewrite bool_decide_eq_false_2 by (by intros ->).
  cbn [negb]. by rewrite Hlabels.
Qed.

Lemma checkpoint_without_labels_raises_witness :
  let fs := Files (Some demo_df) (FileText (Some (JObj [("last_batch", JNum 3)])))
                  None None None in
  main_async (pandas := lenient_pandas) 2 "cleaned_text" demo_service demo_clock fs [0; 1] None
  = Run (Raised KeyError) fs 0.
Proof.
  intros fs.
  apply (checkpoint_without_labels_raises (pandas := lenient_pandas) 2 "cleaned_text"
      demo_service demo_clock
           fs demo_df demo_texts [("last_batch", JNum 3)] [0; 1] None);
    [reflexivity|reflexivity|lia|reflexivity|reflexivity].
Defined.

(** ** The periodic checkpoint *)

Section Cadence.

Context {pandas : Pandas}.

Variable BATCH_SIZE : nat.
Variable service : service_t.
Variable clock : nat → string.
Variable df : dataframe.
Variable texts : list string.

#[local] Abbreviation serial := (foldl (handle_batch BATCH_SIZE service clock df texts)).





End Cadence.



(** ** Killed at any point *)

Lemma cs_done_intermediate BATCH_SIZE texts b ph st :
  intermediate_file (cs_done BATCH_SIZE texts b ph st) = intermediate_file st.
Proof. by destruct ph as [| | | | |[]|]. Qed.



(** ** Progress of the tasks *)

Lemma work_left_insert (ts : list (nat * phase)) i t t' :
  ts !! i = Some t →
  work_left (<[i:=t']> ts) + steps_left t.2 = work_left ts + steps_left t'.2.
Proof.
  unfold work_left. revert i.
  induction ts as [|t0 ts IH]; intros [|i] Hi; try done.
  - injection Hi as ->. change (<[0:=t']> (t :: ts)) with (t' :: ts).
    rewrite !fmap_cons. cbn [sum_list_with]. unfold id. lia.
  - change (<[S i:=t']> (t0 :: ts)) with (t0 :: <[i:=t']> ts).
    change ((t0 :: ts) !! S i) with (ts !! i) in Hi.
    rewrite !fmap_cons. cbn [sum_list_with]. specialize (IH i Hi). lia.
Qed.

Lemma work_left_start (l : list nat) :
  work_left ((λ b, (b, AtGate 1)) <$> l) = 20 * length l.
Proof.
  unfold work_left. induction l as [|b l IH]; [done|].
  rewrite !fmap_cons. cbn [sum_list sum_list_with length]. rewrite IH.
  simpl. lia.
Qed.

Lemma count_phase_pos p (ts : list (nat * phase)) :
  0 < count_phase p ts → ∃ i t, ts !! i = Some t ∧ p t.2 = true.
Proof.
  unfold count_phase. intros Hpos.
  destruct (filter (λ t, p t.2 = true) ts) as [|t l] eqn:Hf; [simpl in Hpos; lia|].
  assert (t ∈ filter (λ t, p t.2 = true) ts) as Ht by (rewrite Hf; left).
  apply list_elem_of_filter in Ht as [Hp Ht].
  apply list_elem_of_lookup in Ht as [i Hi]. eauto.
Qed.

Lemma count_phase_none p (ts : list (nat * phase)) :
  Forall (λ t, p t.2 = false) ts → count_phase p ts = 0.
Proof.
  unfold count_phase. induction 1 as [|t ts Ht _ IH]; [done|].
  rewrite filter_cons, decide_False by congruence. done.
Qed.

Section Progress.

Context {pandas : Pandas}.

Variable BATCH_SIZE : nat.
Variable MAX_CONCURRENCY : nat.
Variable service : service_t.
Variable clock : nat → string.
Variable df : dataframe.
Variable texts : list string.

#[local] Abbreviation steps := (step BATCH_SIZE service clock df texts).

Lemma step_work_left c c' :
  steps c c' → S (work_left (tasks c')) ≤ work_left (tasks c).
Proof.
  intros Hstep.
  destruct Hstep as [c i b k Hi Hsem|c i b k resp Hi _|c i b k e Hi _ _
                    |c i b k e Hi _ _ _|c i b k e Hi _ _ Hstop|c i b k Hi
                    |c i b r Hi|c i b labels Hi _|c i b labels Hi
                    |c i b labels Hi|c i b labels Hi|c i b labels Hi];
    cbn [tasks]; unfold set_task;
    match goal with
    | |- context [<[i:=?t']> _] =>
        pose proof (work_left_insert _ _ _ t' Hi) as Hw
    end; cbn [snd steps_left] in Hw; try lia.
  apply bool_decide_eq_false in Hstop. lia.
Qed.

Lemma in_flight_steps c i b k :
  tasks c !! i = Some (b, InFlight k) → ∃ c', steps c c'.
Proof.
  intros Hi.
  destruct (request BATCH_SIZE service texts b k) as [resp|e] eqn:Hreq.
  - eexists. by eapply step_response.
  - destruct (retry_if_exception_type transient_errors e) eqn:Hre.
    + destruct (stop_after_attempt 5 k) eqn:Hstop.
      * eexists. by eapply step_exhausted.
      * eexists. by eapply step_retry.
    + eexists. by eapply step_error.
Qed.

Lemma locked_steps c i b pc labels :
  tasks c !! i = Some (b, Locked pc labels) → ∃ c', steps c c'.
Proof.
  intros Hi. destruct pc; eexists.
  - by eapply step_write.
  - by eapply step_add.
  - by eapply step_count.
  - by eapply step_save.
Qed.

End Progress.

(** X12.  The tasks of a run cannot go on for ever: each step uses up
    some of a budget of twenty steps per pending batch (five times gate,
    request and sleep at the most, then parsing, the lock and the four
    statements under it), whatever the service answers and whatever the
    loop schedules. *)
Theorem tasks_terminate {pandas : Pandas} BATCH_SIZE MAX_CONCURRENCY service clock df texts
    st pending n c :
  nsteps (step BATCH_SIZE service clock df texts) n (start MAX_CONCURRENCY st pending) c →
  n + work_left (tasks c) ≤ 20 * length pending.
Proof.
  rewrite <-(work_left_start pending).
  change ((λ b, (b, AtGate 1)) <$> pending) with (tasks (start MAX_CONCURRENCY st pending)).
  generalize (start MAX_CONCURRENCY st pending). intros c0 Hn.
  induction Hn as [c1|n c1 c2 c3 Hstep _ IH]; [lia|].
  apply step_work_left in Hstep. lia.
Qed.

Lemma tasks_terminate_witness :
  let c := Config 0 false demo_state [(0, InFlight 1); (1, AtGate 1)] in
  1 + work_left (tasks c) ≤ 20 * 2.
Proof.
  intros c.
  apply (tasks_terminate (pandas := lenient_pandas) 2 1 demo_service demo_clock demo_df
      demo_texts demo_state
           [0; 1] 1 c).
  apply (nsteps_l _ _ _ c); [|apply nsteps_O].
  apply (step_acquire 2 demo_service demo_clock demo_df demo_texts
           (start 1 demo_state [0; 1]) 0 0 1); [reflexivity|simpl; lia].
Defined.

(** X13.  With at least one permit the tasks never get stuck: in every
    state they can reach, either every task has finished or some task can
    take a step.  A task waiting at the gate is not blocked for ever,
    because a missing permit is held by a request that is out; a task
    waiting for the lock is not, because the lock is held by a task inside
    the critical section, which awaits nothing there. *)
Theorem tasks_never_stuck {pandas : Pandas} BATCH_SIZE MAX_CONCURRENCY service clock df texts
    st pending c :
  1 ≤ MAX_CONCURRENCY →
  reachable BATCH_SIZE MAX_CONCURRENCY service clock df texts st pending c →
  Forall (λ t, t.2 = Finished) (tasks c) ∨
  ∃ c', step BATCH_SIZE service clock df texts c c'.
Proof.
  intros Hmax Hc.
  destruct (decide (Forall (λ t : nat * phase, is_finished t.2 = true) (tasks c)))
    as [Hall|Hnot].
  { left. eapply Forall_impl; [exact Hall|]. intros [b []]; done. }
  right. apply not_Forall_Exists in Hnot; [|apply _].
  apply Exists_exists in Hnot as ([b ph] & Hin & Hph).
  apply list_elem_of_lookup in Hin as [i Hi]. cbn [snd] in Hph.
  destruct ph as [k|k|k|r|labels|pc labels|]; [| | | | | |by destruct Hph].
  - (* at the gate *)
    destruct (decide (0 < sem c)) as [Hsem|Hsem].
    + eexists. by eapply step_acquire.
    + pose proof (permits_invariant _ _ _ _ _ _ _ _ _ Hc) as Hperm.
      destruct (count_phase_pos in_flight (tasks c)) as (j & [b' ph'] & Hj & Hfl); [lia|].
      destruct ph'; try done. by eapply in_flight_steps.
  - by eapply in_flight_steps.
  - eexists. by eapply step_wake.
  - eexists. by eapply step_parse.
  - (* at the lock *)
    destruct (lock c) eqn:Hlock.
    + destruct (tasks_inv_reachable _ _ _ _ _ _ _ _ _ Hc) as (_ & _ & hist & _ & Hown).
      destruct Hown as [(Hfree & _)|(_ & j & b' & ph' & Hj & Hcs & _)]; [congruence|].
      destruct ph'; try done. by eapply locked_steps.
    + eexists. by eapply step_lock.
  - by eapply locked_steps.
Qed.

Lemma tasks_never_stuck_witness :
  let c := Config 0 false demo_state [(0, InFlight 1); (1, AtGate 1)] in
  Forall (λ t, t.2 = Finished) (tasks c) ∨
  ∃ c', step (pandas := lenient_pandas) 2 demo_service demo_clock demo_df demo_texts c c'.
Proof.
  intros c.
  apply (tasks_never_stuck (pandas := lenient_pandas) 2 1 demo_service demo_clock demo_df
      demo_texts demo_state
           [0; 1] c); [lia|].
  eapply rtc_l; [|apply rtc_refl].
  apply (step_acquire 2 demo_service demo_clock demo_df demo_texts
           (start 1 demo_state [0; 1]) 0 0 1); [reflexivity|simpl; lia].
Defined.

(** X14.  When every task has finished, all permits are back, the lock is
    free, and the shared state is the one obtained by running
    [handle_batch] without interleaving once for every pending batch, in
    some order: the state [main_async] goes on with after [gather]. *)
Theorem finished_tasks_are_a_serial_run {pandas : Pandas} BATCH_SIZE MAX_CONCURRENCY service
    clock df texts
    st pending c :
  reachable BATCH_SIZE MAX_CONCURRENCY service clock df texts st pending c →
  Forall (λ t, t.2 = Finished) (tasks c) →
  sem c = MAX_CONCURRENCY ∧
  lock c = false ∧
  ∃ order,
    order ≡ₚ pending ∧
    shared c = foldl (handle_batch BATCH_SIZE service clock df texts) st order.
Proof.
  intros Hc Hall.
  pose proof (permits_invariant _ _ _ _ _ _ _ _ _ Hc) as Hperm.
  rewrite count_phase_none in Hperm
    by (eapply Forall_impl; [exact Hall|]; by intros [b ph] ->).
  destruct (tasks_inv_reachable _ _ _ _ _ _ _ _ _ Hc) as (Hfst & _ & hist & Hhist & Hown).
  assert (finished_batches (tasks c) = pending) as Hfin.
  { rewrite <-Hfst. clear -Hall. unfold finished_batches.
    induction Hall as [|[b ph] ts Hph _ IH]; [done|].
    cbn [snd] in Hph. subst ph.
    rewrite filter_cons, decide_True by done. by rewrite !fmap_cons, IH. }
  destruct Hown as [(Hfree & _ & Hsh)|(_ & j & b & ph & Hj & Hcs & _)].
  - split; [lia|]. split; [done|]. exists hist. split; [by rewrite Hhist, Hfin|done].
  - apply (Forall_lookup_1 _ _ _ _ Hall) in Hj. simpl in Hj. by subst ph.
Qed.

(** One batch of three reviews whose only request fails with an error that
    is not retried: the eight steps of its task. *)
Lemma finished_tasks_are_a_serial_run_witness :
  let service : service_t := λ _ _, Err APIError in
  let labels := replicate 3 JNull in
  let c := Config 1 false
             (cs_save (pandas := lenient_pandas) demo_clock demo_df 0
                (cs_count (cs_add 0 (cs_write 3 demo_texts 0 labels demo_state))))
             [(0, Finished)] in
  reachable (pandas := lenient_pandas) 3 1 service demo_clock demo_df demo_texts demo_state [0]
      c ∧
  sem c = 1 ∧ lock c = false.
Proof.
  intros service labels c.
  assert (reachable (pandas := lenient_pandas) 3 1 service demo_clock demo_df demo_texts
      demo_state [0] c) as Hc.
  { unfold reachable.
    set (c1 := Config 0 false demo_state [(0, InFlight 1)]).
    set (c2 := Config 1 false demo_state [(0, Parsing (Err APIError))]).
    set (c3 := Config 1 false demo_state [(0, AtLock labels)]).
    set (c4 := Config 1 true demo_state [(0, Locked CsWrite labels)]).
    set (c5 := Config 1 true (cs_write 3 demo_texts 0 labels demo_state)
                      [(0, Locked CsAdd labels)]).
    set (c6 := Config 1 true (cs_add 0 (cs_write 3 demo_texts 0 labels demo_state))
                      [(0, Locked CsCount labels)]).
    set (c7 := Config 1 true
                      (cs_count (cs_add 0 (cs_write 3 demo_texts 0 labels demo_state)))
                      [(0, Locked CsSave labels)]).
    apply (rtc_l _ _ c1);
      [refine (step_acquire _ _ _ _ _ (start 1 demo_state [0]) 0 0 1 _ _);
       [reflexivity|simpl; lia]|].
    apply (rtc_l _ _ c2);
      [refine (step_error _ _ _ _ _ c1 0 0 1 APIError _ _ _); reflexivity|].
    apply (rtc_l _ _ c3);
      [refine (step_parse _ _ _ _ _ c2 0 0 (Err APIError) _); reflexivity|].
    apply (rtc_l _ _ c4);
      [refine (step_lock _ _ _ _ _ c3 0 0 labels _ _); reflexivity|].
    apply (rtc_l _ _ c5);
      [refine (step_write _ _ _ _ _ c4 0 0 labels _); reflexivity|].
    apply (rtc_l _ _ c6);
      [refine (step_add _ _ _ _ _ c5 0 0 labels _); reflexivity|].
    apply (rtc_l _ _ c7);
      [refine (step_count _ _ _ _ _ c6 0 0 labels _); reflexivity|].
    apply (rtc_l _ _ c);
      [refine (step_save _ _ _ _ _ c7 0 0 labels _); reflexivity|].
    apply rtc_refl. }
  split; [exact Hc|].
  destruct (finished_tasks_are_a_serial_run (pandas := lenient_pandas) 3 1 service demo_clock
      demo_df demo_texts
              demo_state [0] c Hc) as (Hsem & Hlock & _).
  - repeat constructor.
  - split; [exact Hsem|exact Hlock].
Defined.

(** ** The text of a completion *)

Lemma lstrip_snoc s ch :
  isspace ch = false → lstrip (s ++ [ch]) = lstrip s ++ [ch].
Proof.
  intros Hch. induction s as [|c s IH]; simpl.
  - by rewrite Hch.
  - by destruct (isspace c).
Qed.

Lemma lstrip_head s ch : head (lstrip s) = Some ch → isspace ch = false.
Proof.
  induction s as [|c s IH]; simpl; [done|].
  destruct (isspace c) eqn:Hc; [done|]. simpl. by intros [= <-].
Qed.

Lemma lstrip_fixed s :
  (∀ ch, head s = Some ch → isspace ch = false) → lstrip s = s.
Proof.
  destruct s as [|c s]; [done|]. intros Hc. simpl. by rewrite (Hc c).
Qed.

Lemma rstrip_cons ch s : isspace ch = false → rstrip (ch :: s) = ch :: rstrip s.
Proof.
  intros Hch. unfold rstrip.
  by rewrite reverse_cons, lstrip_snoc, reverse_app by done.
Qed.

Lemma rstrip_last s ch : last (rstrip s) = Some ch → isspace ch = false.
Proof. unfold rstrip. rewrite last_reverse. apply lstrip_head. Qed.

Lemma rstrip_fixed s :
  (∀ ch, last s = Some ch → isspace ch = false) → rstrip s = s.
Proof.
  intros Hs. unfold rstrip. rewrite lstrip_fixed; [apply reverse_involutive|].
  intros ch. rewrite head_reverse. apply Hs.
Qed.

Lemma strip_head s ch : head (strip s) = Some ch → isspace ch = false.
Proof.
  unfold strip. pose proof (lstrip_head s) as Hhd.
  destruct (lstrip s) as [|c t]; [done|].
  rewrite rstrip_cons by by apply Hhd. simpl. by intros [= <-]; apply Hhd.
Qed.

Lemma strip_last s ch : last (strip s) = Some ch → isspace ch = false.
Proof. apply rstrip_last. Qed.

Lemma strip_fixed s :
  (∀ ch, head s = Some ch → isspace ch = false) →
  (∀ ch, last s = Some ch → isspace ch = false) →
  strip s = s.
Proof.
  intros Hhd Hlast. unfold strip. by rewrite lstrip_fixed, rstrip_fixed.
Qed.

Lemma strip_strip s : strip (strip s) = strip s.
Proof. apply strip_fixed; [apply strip_head|apply strip_last]. Qed.

Lemma startswith_app p s : startswith p (p ++ s) = true.
Proof.
  induction p as [|c p IH]; [by destruct s|].
  simpl. by rewrite N.eqb_refl.
Qed.

Lemma startswith_prefix p s : startswith p s = true → ∃ rest, s = p ++ rest.
Proof.
  revert s. induction p as [|c p IH]; intros s; [by exists s|].
  destruct s as [|ch s]; [done|]. simpl.
  intros [->%N.eqb_eq [rest ->]%IH]%andb_true_iff. by exists rest.
Qed.

Lemma startswith_app_l p a b :
  length p ≤ length a → startswith p (a ++ b) = startswith p a.
Proof.
  revert a. induction p as [|c p IH]; intros a Hlen; [by destruct a, b|].
  destruct a as [|ch a]; simpl in *; [lia|].
  rewrite IH by lia. done.
Qed.

Lemma split_from_skip sep piece pre s :
  split_from sep (length pre) piece (pre ++ s) = split_from sep 0 piece s.
Proof. induction pre as [|c pre IH]; [by destruct s|done]. Qed.

Lemma split_from_cons sep skip piece s : ∃ p l, split_from sep skip piece s = p :: l.
Proof.
  revert skip piece. induction s as [|ch s IH]; intros skip piece; simpl; [eauto|].
  destruct skip as [|skip]; [|apply IH].
  destruct (startswith sep (ch :: s)); [eauto|apply IH].
Qed.

Lemma split_from_0 sep piece ch s :
  split_from sep 0 piece (ch :: s)
  = if startswith sep (ch :: s)
    then reverse piece :: split_from sep (length sep - 1) [] s
    else split_from sep 0 (ch :: piece) s.
Proof. done. Qed.

Lemma split_from_here sep piece rest :
  sep ≠ [] →
  split_from sep 0 piece (sep ++ rest) = reverse piece :: split_from sep 0 [] rest.
Proof.
  intros Hsep. destruct sep as [|c sep]; [done|].
  pose proof (startswith_app (c :: sep) rest) as Hstart.
  rewrite <-!app_comm_cons in *. rewrite split_from_0, Hstart.
  cbn [length]. rewrite Nat.sub_succ, Nat.sub_0_r. by rewrite split_from_skip.
Qed.

(** Up to the first occurrence of the separator. *)
Lemma split_from_first sep piece s rest :
  sep ≠ [] →
  contains sep (s ++ take (length sep - 1) sep) = false →
  split_from sep 0 piece (s ++ sep ++ rest)
  = (reverse piece ++ s) :: split_from sep 0 [] rest.
Proof.
  intros Hsep. revert piece. induction s as [|ch s IH]; intros piece Hno.
  - by rewrite app_nil_l, app_nil_r, split_from_here.
  - cbn [app contains] in Hno. apply orb_false_iff in Hno as [Hhere Hno].
    rewrite <-app_comm_cons, split_from_0.
    assert (startswith sep (ch :: (s ++ sep ++ rest)) = false) as ->.
    { rewrite <-(take_drop (length sep - 1) sep) at 2.
      rewrite <-app_assoc, app_assoc.
      change (ch :: (s ++ take (length sep - 1) sep) ++ ?t)
        with ((ch :: s ++ take (length sep - 1) sep) ++ t).
      rewrite startswith_app_l; [done|].
      cbn [length]. rewrite length_app, length_take. lia. }
    rewrite IH by done. by rewrite reverse_cons, <-app_assoc.
Qed.

(** A text without the separator is one piece. *)
Lemma split_from_none sep piece s :
  contains sep s = false → split_from sep 0 piece s = [reverse piece ++ s].
Proof.
  revert piece. induction s as [|ch s IH]; intros piece Hno.
  - by rewrite app_nil_r.
  - cbn [contains] in Hno. apply orb_false_iff in Hno as [Hhere Hno].
    rewrite split_from_0, Hhere, IH by done. by rewrite reverse_cons, <-app_assoc.
Qed.

(** The text between the opening fence and the next one, or the end. *)
Lemma split_fenced inner tail :
  (tail = [] ∧ contains FENCE inner = false) ∨
  (∃ rest, tail = FENCE ++ rest ∧ contains FENCE (inner ++ [0x60; 0x60]%N) = false) →
  split FENCE (FENCE ++ inner ++ tail) !! 1 = Some inner.
Proof.
  intros Htail. unfold split.
  rewrite split_from_here by done.
  cbn [lookup list_lookup].
  destruct Htail as [(-> & Hno)|(rest & -> & Hno)].
  - by rewrite app_nil_r, split_from_none.
  - by rewrite (split_from_first FENCE [] inner rest).
Qed.

(** X15.  Cleaning the content of a completion never fails: a content
    that starts with a fence always has a second piece, so that the index
    [1] raises no [IndexError].  What [json.loads] is given has no
    whitespace at either end. *)
Theorem clean_content_total content :
  ∃ cleaned,
    clean_content content = Some cleaned ∧
    strip cleaned = cleaned ∧
    (∀ ch, head cleaned = Some ch → isspace ch = false) ∧
    (∀ ch, last cleaned = Some ch → isspace ch = false) ∧
    ∀ json_loads,
      completion_of json_loads (Some content) = Some (Text (json_loads cleaned)).
Proof.
  assert (∃ c, clean_content content = Some (strip c)) as [c Hc].
  { unfold clean_content.
    destruct (startswith FENCE (strip content)) eqn:Hfence; [|by eexists].
    apply startswith_prefix in Hfence as [rest ->]. unfold split.
    rewrite split_from_here by done.
    destruct (split_from_cons FENCE 0 [] rest) as (p & l & ->).
    cbn [lookup list_lookup mbind option_bind]. by eexists. }
  exists (strip c). split; [done|]. split; [apply strip_strip|].
  split; [apply strip_head|]. split; [apply strip_last|].
  intros json_loads. unfold completion_of. by rewrite Hc.
Qed.

(** X16.  A content that, once stripped, does not start with a fence goes
    to [json.loads] stripped and otherwise as it is: a fence further in,
    after some words of introduction, is not removed. *)
Theorem unfenced_content_is_stripped content :
  startswith FENCE (strip content) = false →
  clean_content content = Some (strip content).
Proof.
  intros Hfence. unfold clean_content. rewrite Hfence.
  cbn [mbind option_bind]. by rewrite strip_strip.
Qed.

Lemma unfenced_content_is_stripped_witness :
  (* " [1]\n" *)
  clean_content [0x20; 0x5B; 0x31; 0x5D; 0x0A]%N = Some [0x5B; 0x31; 0x5D]%N.
Proof.
  apply (unfenced_content_is_stripped [0x20; 0x5B; 0x31; 0x5D; 0x0A]%N).
  reflexivity.
Defined.

(** X17.  A content that, once stripped, starts with a fence is reduced
    to the text between that fence and the next one, or the end when the
    fence is not closed; a [json] tag right after the opening fence is
    removed, and the result is stripped.  Whatever follows the closing
    fence is dropped. *)
Theorem fenced_content_is_unwrapped content inner tail :
  strip content = FENCE ++ inner ++ tail →
  (tail = [] ∧ contains FENCE inner = false) ∨
  (∃ rest, tail = FENCE ++ rest ∧ contains FENCE (inner ++ [0x60; 0x60]%N) = false) →
  clean_content content
  = Some (strip (if startswith JSON_TAG inner then drop 4 inner else inner)).
Proof.
  intros Hcontent Htail. unfold clean_content. rewrite Hcontent.
  rewrite (startswith_app FENCE (inner ++ tail)).
  by rewrite (split_fenced inner tail Htail).
Qed.

Lemma fenced_content_is_unwrapped_witness :
  (* a fence tagged json, "\n[1]\n", a fence, "ok" *)
  clean_content ([0x60; 0x60; 0x60; 0x6A; 0x73; 0x6F; 0x6E; 0x0A; 0x5B; 0x31; 0x5D; 0x0A;
                  0x60; 0x60; 0x60; 0x6F; 0x6B]%N)
  = Some [0x5B; 0x31; 0x5D]%N.
Proof.
  apply (fenced_content_is_unwrapped
           ([0x60; 0x60; 0x60; 0x6A; 0x73; 0x6F; 0x6E; 0x0A; 0x5B; 0x31; 0x5D; 0x0A;
             0x60; 0x60; 0x60; 0x6F; 0x6B]%N)
           [0x6A; 0x73; 0x6F; 0x6E; 0x0A; 0x5B; 0x31; 0x5D; 0x0A]%N
           [0x60; 0x60; 0x60; 0x6F; 0x6B]%N).
  - reflexivity.
  - right. exists [0x6F; 0x6B]%N. split; reflexivity.
Defined.

(** ** What a run leaves alone, and what the schedule cannot change *)

Lemma cleanup_checkpoint_absent f : cleanup_checkpoint f = FileAbsent.
Proof. by destruct f. Qed.

(** X18.  With [BATCH_SIZE = 0] a run that has found its input and the
    text column stops at the division, with a [ZeroDivisionError], before
    it looks at the checkpoint: no request is made and no file written. *)
Theorem zero_batch_size_raises {pandas : Pandas} TEXT_COL service clock fs df texts order stop :
  path_input fs = Some df →
  df_column TEXT_COL df = Some texts →
  main_async 0 TEXT_COL service clock fs order stop = Run (Raised ZeroDivisionError) fs 0.
Proof.
  intros Hin Hcol. unfold main_async. by rewrite Hin, Hcol.
Qed.

Lemma zero_batch_size_raises_witness :
  main_async (pandas := lenient_pandas) 0 "cleaned_text" demo_service demo_clock demo_files [0;
      1] None
  = Run (Raised ZeroDivisionError) demo_files 0.
Proof.
  apply (zero_batch_size_raises (pandas := lenient_pandas) "cleaned_text" demo_service
      demo_clock demo_files
           demo_df demo_texts [0; 1] None); reflexivity.
Defined.

(** X19.  No run touches its input file, and a run that is stopped, by an
    interrupt, a cancellation or an exception out of [gather], writes
    neither output file: whatever was at the output paths is still
    there. *)
Theorem stopped_run_writes_no_output {pandas : Pandas} BATCH_SIZE TEXT_COL service clock fs
    order why :
  (∀ stop,
     path_input (disk (main_async BATCH_SIZE TEXT_COL service clock fs order stop))
     = path_input fs) ∧
  let r := main_async BATCH_SIZE TEXT_COL service clock fs order (Some why) in
  path_output_parquet (disk r) = path_output_parquet fs ∧
  path_output_csv (disk r) = path_output_csv fs.
Proof.
  split; [intros stop|]; unfold main_async.
  all: destruct (path_input fs) as [df|] eqn:Hin; [|done].
  all: destruct (df_column TEXT_COL df) as [texts|]; [|done].
  all: destruct (num_batches _ _) as [nb|]; [|done].
  all: destruct (seed _ _ _); [|done..].
  - destruct stop as [[|e|]|]; [done..|]. by rewrite final_save_input.
  - by destruct why.
Qed.

(** X20.  The order in which the tasks complete leaves no trace in the
    table of a run that is not stopped: started from a table of the right
    length, two runs that complete the pending batches in different orders,
    the service answering each request the same way, hold the same table
    when [gather] is over, end the same way, be it by an exception of the
    final save, write the same outputs and make the same number of
    requests; when they return they leave the same files altogether.  (A
    periodic checkpoint left behind by a final save that raises depends on
    the order.) *)
Theorem completion_order_is_immaterial {pandas : Pandas} BATCH_SIZE TEXT_COL service
    clock1 clock2 fs df texts nb labels0 completed0 pending0 order1 order2 :
  path_input fs = Some df →
  df_column TEXT_COL df = Some texts →
  num_batches (length texts) BATCH_SIZE = Ok nb →
  seed (length texts) nb (load_checkpoint (path_checkpoint fs))
    = Seeded labels0 completed0 pending0 →
  length labels0 = length texts →
  order1 ≡ₚ pending0 →
  order2 ≡ₚ pending0 →
  let r1 := main_async BATCH_SIZE TEXT_COL service clock1 fs order1 None in
  let r2 := main_async BATCH_SIZE TEXT_COL service clock2 fs order2 None in
  (∃ table,
     all_labels <$> gathered BATCH_SIZE TEXT_COL service clock1 fs order1 = Some table ∧
     all_labels <$> gathered BATCH_SIZE TEXT_COL service clock2 fs order2 = Some table) ∧
  status r1 = status r2 ∧
  path_output_parquet (disk r1) = path_output_parquet (disk r2) ∧
  path_output_csv (disk r1) = path_output_csv (disk r2) ∧
  requests_made r1 = requests_made r2 ∧
  (status r1 = Returned → r1 = r2).
Proof.
  intros Hin Hcol Hnb Hseed Hlen Horder1 Horder2 r1 r2.
  assert (1 ≤ BATCH_SIZE) as HB.
  { destruct BATCH_SIZE; [|lia]. by vm_compute in Hnb. }
  destruct (num_batches_bounds (length texts) BATCH_SIZE HB) as (nb' & Hnb' & Hup & Hlow).
  rewrite Hnb in Hnb'. injection Hnb' as <-.
  pose proof (seed_pending _ _ _ _ _ _ Hseed) as Hpending0.
  assert (sum_list ((λ b, requests (labels_for BATCH_SIZE service texts b).2) <$> order1)
          = sum_list ((λ b, requests (labels_for BATCH_SIZE service texts b).2) <$> order2))
    as Hcalls by by rewrite Horder1, Horder2.
  unfold r1, r2.
  rewrite !(main_async_dispatch _ _ _ _ _ _ _ _ _ _ _ _ None Hin Hcol Hnb Hseed).
  erewrite !gathered_eq by done.
  assert (Forall (λ b, b < nb ∧ b ∉ completed0) []) as Hnil by constructor.
  rewrite Hpending0 in Horder1, Horder2.
  assert (∀ order, order ≡ₚ filter (λ b, b ∉ completed0) (seq 0 nb) →
            order ≡ₚ filter (λ b, b ∉ list_to_set [] ∪ completed0) (seq 0 nb)) as Hsame.
  { intros order ->.
    rewrite (list_filter_iff _ (λ b, b ∉ list_to_set [] ∪ completed0)); [done|].
    set_solver. }
  pose proof (resumed_table BATCH_SIZE service clock1 clock1 clock2 df texts nb
                labels0 completed0 [] order1 order2
                (path_checkpoint fs) (path_intermediate fs)
                (path_checkpoint fs) (path_intermediate fs)
                (path_checkpoint fs) (path_intermediate fs)
                HB Hup Hlow Hlen Hnil (Hsame _ Horder1) Horder2) as Htable.
  cbn [foldl all_labels] in Htable.
  assert (list_to_set [] ∪ completed0 = completed0) as Hc0 by set_solver.
  rewrite Hc0 in Htable.
  split; [eexists; split; [done|by rewrite Htable]|].
  rewrite !final_save_requests.
  set (calls1 := sum_list (_ <$> order1)) in *.
  set (calls2 := sum_list (_ <$> order2)) in *.
  destruct (final_save_table fs fs df (length texts) calls1 calls2 _ _
              Htable eq_refl eq_refl) as (Hst & Hp & Hc).
  split; [exact Hst|]. split; [exact Hp|]. split; [exact Hc|]. split; [done|].
  intros Hret. rewrite (final_save_returned _ _ _ _ _ Hret).
  rewrite Hst in Hret. rewrite (final_save_returned _ _ _ _ _ Hret).
  by rewrite Htable, Hcalls.
Qed.

Lemma completion_order_is_immaterial_witness :
  main_async (pandas := lenient_pandas) 2 "cleaned_text"
             demo_service demo_clock demo_files [0; 1] None
  = main_async (pandas := lenient_pandas) 2 "cleaned_text"
               demo_service demo_clock demo_files [1; 0] None.
Proof.
  apply (completion_order_is_immaterial (pandas := lenient_pandas) 2 "cleaned_text"
           demo_service demo_clock demo_clock
           demo_files demo_df demo_texts 2 (replicate 3 JNull) ∅ [0; 1] [0; 1] [1; 0]);
    [reflexivity|reflexivity|reflexivity|reflexivity|reflexivity|
     reflexivity|apply Permutation_swap|reflexivity].
Defined.

(** ** The shared state at every point *)

Lemma finished_lt (ts : list (nat * phase)) i b ph :
  ts !! i = Some (b, ph) → is_finished ph = false →
  length (finished_batches ts) < length ts.
Proof.
  unfold finished_batches. rewrite length_fmap. revert i.
  induction ts as [|t ts IH]; intros [|i] Hi Hph; [done|done| |].
  - injection Hi as ->. rewrite filter_cons, decide_False by (simpl; congruence).
    pose proof (length_filter (λ t : nat * phase, is_finished t.2 = true) ts).
    simpl. lia.
  - specialize (IH i Hi Hph). rewrite filter_cons. case_decide; simpl; lia.
Qed.

Lemma finished_le (ts : list (nat * phase)) : length (finished_batches ts) ≤ length ts.
Proof. unfold finished_batches. rewrite length_fmap. apply length_filter. Qed.

(** X21.  Also while a task is in the middle of the statements under the
    lock, the shared state keeps its shape: the table has one entry per
    record, the completed set holds nothing but what it held at the start
    and pending batches, and the counter does not exceed the number of
    pending batches. *)
Theorem shared_state_keeps_its_shape {pandas : Pandas} BATCH_SIZE MAX_CONCURRENCY service clock
    df texts
    nb st0 pending c :
  num_batches (length texts) BATCH_SIZE = Ok nb →
  length (all_labels st0) = length texts →
  processed_count st0 = 0 →
  Forall (λ b, b < nb) pending →
  reachable BATCH_SIZE MAX_CONCURRENCY service clock df texts st0 pending c →
  length (all_labels (shared c)) = length texts ∧
  completed_batches (shared c) ⊆ list_to_set pending ∪ completed_batches st0 ∧
  processed_count (shared c) ≤ length pending.
Proof.
  intros Hnb Hlen Hzero Hvalid Hc.
  assert (1 ≤ BATCH_SIZE) as HB.
  { destruct BATCH_SIZE; [|lia]. by vm_compute in Hnb. }
  destruct (num_batches_bounds (length texts) BATCH_SIZE HB) as (nb' & Hnb' & Hup & Hlow).
  rewrite Hnb in Hnb'. injection Hnb' as <-.
  destruct (tasks_inv_reachable _ _ _ _ _ _ _ _ _ Hc) as (Hfst & Hok & hist & Hhist & Hown).
  assert (∀ b, b ∈ hist → b ∈ pending) as Hsub.
  { intros b Hb. rewrite Hhist in Hb.
    eapply elem_of_sublist in Hb; [|apply finished_sublist]. by rewrite Hfst in Hb. }
  assert (Forall (λ b, b < nb) hist) as Hhv.
  { apply Forall_forall. intros b Hb%Hsub. by eapply (proj1 (Forall_forall _ _) Hvalid). }
  assert (length (tasks c) = length pending) as Hlt by by rewrite <-Hfst, length_fmap.
  set (s := foldl (handle_batch BATCH_SIZE service clock df texts) st0 hist) in *.
  assert (length (all_labels s) = length texts) as Hs1
    by by apply (serial_length _ _ _ _ _ nb).
  assert (completed_batches s = list_to_set hist ∪ completed_batches st0) as Hs2
    by apply serial_completed.
  assert (processed_count s = length hist) as Hs3
    by (unfold s; by rewrite serial_count, Hzero).
  assert (length hist = length (finished_batches (tasks c))) as Hs4 by by rewrite Hhist.
  destruct Hown as [(_ & _ & Hsh)|(_ & i & b & ph & Hi & Hcs & _ & Hsh)];
    rewrite Hsh; fold s; clear Hsh.
  - split; [done|]. split; [rewrite Hs2; set_solver|].
    pose proof (finished_le (tasks c)). lia.
  - assert (b ∈ pending) as Hb.
    { rewrite <-Hfst. apply list_elem_of_fmap. exists (b, ph). split; [done|].
      by eapply list_elem_of_lookup_2. }
    assert (b < nb) as Hbn by by eapply (proj1 (Forall_forall _ _) Hvalid).
    pose proof (Forall_lookup_1 _ _ _ _ Hok Hi) as Hti.
    unfold task_ok in Hti. cbn [fst snd] in Hti.
    assert (length (finished_batches (tasks c)) < length (tasks c)) as Hfl.
    { eapply finished_lt; [exact Hi|]. by destruct ph. }
    pose proof (handle_batch_length BATCH_SIZE service clock df texts nb Hup Hlow s b Hbn Hs1)
      as Hw.
    rewrite handle_batch_labels in Hw.
    destruct ph as [| | | | |[] labels|]; try done; subst labels;
      cbn [cs_done cs_count cs_add cs_write all_labels completed_batches processed_count];
      (split; [done|]); (split; [rewrite Hs2; set_solver|lia]).
Qed.

(** The task of batch 1 has written its row and not yet added its index. *)
Lemma shared_state_keeps_its_shape_witness :
  let labels1 := [JObj [("food_score", JNum 11)]] in
  let c :=
    Config 2 true
      (State [JNull; JNull; JObj [("food_score", JNum 11)]] ∅ 0 FileAbsent None 0)
      [(0, AtGate 1); (1, Locked CsAdd labels1)] in
  reachable (pandas := lenient_pandas) 2 2 demo_service demo_clock demo_df demo_texts demo_state
      [0; 1] c ∧
  length (all_labels (shared c)) = 3.
Proof.
  intros labels1 c.
  assert (reachable (pandas := lenient_pandas) 2 2 demo_service demo_clock demo_df demo_texts
      demo_state [0; 1] c)
    as Hc.
  { unfold reachable.
    set (c1 := Config 1 false demo_state [(0, AtGate 1); (1, InFlight 1)]).
    set (c2 := Config 2 false demo_state [(0, AtGate 1); (1, Backoff 1)]).
    set (c3 := Config 2 false demo_state [(0, AtGate 1); (1, AtGate 2)]).
    set (c4 := Config 1 false demo_state [(0, AtGate 1); (1, InFlight 2)]).
    set (resp := Text (Some (JArr [demo_annotation (0, "rude waiter")]))).
    set (c5 := Config 2 false demo_state [(0, AtGate 1); (1, Parsing (Ok resp))]).
    set (c6 := Config 2 false demo_state [(0, AtGate 1); (1, AtLock labels1)]).
    set (c7 := Config 2 true demo_state [(0, AtGate 1); (1, Locked CsWrite labels1)]).
    apply (rtc_l _ _ c1);
      [refine (step_acquire _ _ _ _ _ (start 2 demo_state [0; 1]) 1 1 1 _ _);
       [reflexivity|simpl; lia]|].
    apply (rtc_l _ _ c2);
      [refine (step_retry _ _ _ _ _ c1 1 1 1 RateLimitError _ _ _ _); reflexivity|].
    apply (rtc_l _ _ c3);
      [refine (step_wake _ _ _ _ _ c2 1 1 1 _); reflexivity|].
    apply (rtc_l _ _ c4);
      [refine (step_acquire _ _ _ _ _ c3 1 1 2 _ _); [reflexivity|simpl; lia]|].
    apply (rtc_l _ _ c5);
      [refine (step_response _ _ _ _ _ c4 1 1 2 resp _ _); reflexivity|].
    apply (rtc_l _ _ c6);
      [refine (step_parse _ _ _ _ _ c5 1 1 (Ok resp) _); reflexivity|].
    apply (rtc_l _ _ c7);
      [refine (step_lock _ _ _ _ _ c6 1 1 labels1 _ _); reflexivity|].
    apply (rtc_l _ _ c);
      [refine (step_write _ _ _ _ _ c7 1 1 labels1 _); reflexivity|].
    apply rtc_refl. }
  split; [exact Hc|].
  refine (proj1 (shared_state_keeps_its_shape (pandas := lenient_pandas) 2 2 demo_service
      demo_clock demo_df demo_texts
                   2 demo_state [0; 1] c _ _ _ _ Hc)).
  - reflexivity.
  - reflexivity.
  - reflexivity.
  - repeat constructor.
Defined.

(** ** The handlers and the intermediate file *)




Lemma all_none_spec (l : list json) :
  forallb is_none l = true ↔ Forall (λ label, label = JNull) l.
Proof.
  induction l as [|label l IH]; simpl.
  - split; [constructor|done].
  - rewrite andb_true_iff, IH, Forall_cons.
    destruct label; simpl; intuition congruence.
Qed.

(** X23.  [save_intermediate] returns at once, without a call to pandas
    and leaving the intermediate file alone, while every label is [None].
    Otherwise it hands pandas one row per label, none of them [None]: a
    label that is [None] or an empty dict becomes the empty dict, every
    other label is kept.  The file holds the records beside these rows
    when [pd.DataFrame] and [to_parquet] return; when one of them raises,
    [save_intermediate] raises the same exception and the file is as it
    was. *)
Theorem save_intermediate_rows {pandas : Pandas} df all_labels old :
  (Forall (λ label, label = JNull) all_labels →
   save_intermediate df all_labels old = Ok old) ∧
  (¬ Forall (λ label, label = JNull) all_labels →
   ∃ rows,
     length rows = length all_labels ∧
     Forall (λ row, row ≠ JNull) rows ∧
     (∀ i label, all_labels !! i = Some label →
        rows !! i = Some (if truthy label then label else JObj [])) ∧
     (pd_DataFrame rows = Ok () → to_parquet df rows = Ok () →
      save_intermediate df all_labels old = Ok (Some (df, rows))) ∧
     (∀ e, pd_DataFrame rows = Err e ∨
           pd_DataFrame rows = Ok () ∧ to_parquet df rows = Err e →
        save_intermediate df all_labels old = Err e ∧
        intermediate_after df all_labels old = old)).
Proof.
  unfold intermediate_after, save_intermediate.
  destruct (forallb is_none all_labels) eqn:Hall.
  - split; [done|]. intros Hnot. destruct Hnot. by apply all_none_spec.
  - split.
    + intros Hnone%all_none_spec. congruence.
    + intros _. exists ((λ label, if truthy label then label else JObj []) <$> all_labels).
      split; [by rewrite length_fmap|]. split; [|split; [|split]].
      * apply Forall_fmap, Forall_forall. intros label _. simpl.
        destruct (truthy label) eqn:Ht; [|done]. by destruct label.
      * intros i label Hi. by rewrite list_lookup_fmap, Hi.
      * cbn zeta. by intros -> ->.
      * cbn zeta. by intros e [->|[-> ->]].
Qed.

Lemma save_intermediate_rows_witness :
  save_intermediate (pandas := lenient_pandas) demo_df [JNull; JNull] None = Ok None ∧
  ∃ rows,
    save_intermediate (pandas := lenient_pandas) demo_df
                      [JNull; JObj [("food_score", JNum 1)]] None
    = Ok (Some (demo_df, rows)) ∧
    Forall (λ row, row ≠ JNull) rows.
Proof.
  split.
  - apply (proj1 (save_intermediate_rows (pandas := lenient_pandas)
                    demo_df [JNull; JNull] None)).
    repeat constructor.
  - destruct (proj2 (save_intermediate_rows (pandas := lenient_pandas) demo_df
                       [JNull; JObj [("food_score", JNum 1)]] None))
      as (rows & _ & Hnone & _ & Hwritten & _).
    + intros Hall. apply Forall_cons in Hall as [_ Hall].
      apply Forall_cons in Hall as [Hall _]. discriminate Hall.
    + exists rows. split; [exact (Hwritten eq_refl eq_refl)|exact Hnone].
Defined.

(** X24.  A checkpoint without a [completed_batches] entry counts as one
    in which nothing is completed: every batch is pending, and when all of
    them complete, the table of the checkpoint being of the right length,
    the run ends and writes its outputs as a run without a checkpoint
    does. *)
Theorem checkpoint_without_completed_set {pandas : Pandas} BATCH_SIZE TEXT_COL service clock1
    clock2
    fs df texts nb m labels0 order1 order2 :
  path_input fs = Some df →
  df_column TEXT_COL df = Some texts →
  num_batches (length texts) BATCH_SIZE = Ok nb →
  load_checkpoint (path_checkpoint fs) = Some (JObj m) →
  assoc "labels" m = Some (JArr labels0) →
  assoc "completed_batches" m = None →
  length labels0 = length texts →
  order1 ≡ₚ seq 0 nb →
  order2 ≡ₚ seq 0 nb →
  let fresh :=
    Files (path_input fs) FileAbsent (path_intermediate fs)
          (path_output_parquet fs) (path_output_csv fs) in
  let r := main_async BATCH_SIZE TEXT_COL service clock1 fs order1 None in
  let r' := main_async BATCH_SIZE TEXT_COL service clock2 fresh order2 None in
  pending_of BATCH_SIZE TEXT_COL fs = Some (seq 0 nb) ∧
  status r = status r' ∧
  path_output_parquet (disk r) = path_output_parquet (disk r') ∧
  path_output_csv (disk r) = path_output_csv (disk r').
Proof.
  intros Hin Hcol Hnb Hload Hlabels Hcompleted Hlen Horder1 Horder2 fresh r r'.
  assert (1 ≤ BATCH_SIZE) as HB.
  { destruct BATCH_SIZE; [|lia]. by vm_compute in Hnb. }
  destruct (num_batches_bounds (length texts) BATCH_SIZE HB) as (nb' & Hnb' & Hup & Hlow).
  rewrite Hnb in Hnb'. injection Hnb' as <-.
  assert (seed (length texts) nb (load_checkpoint (path_checkpoint fs))
          = Seeded labels0 ∅ (seq 0 nb)) as Hseed.
  { rewrite Hload. unfold seed. cbn [truthy py_getitem].
    rewrite bool_decide_eq_false_2 by (by intros ->).
    cbn [negb]. rewrite Hlabels. unfold completed_of. rewrite Hcompleted.
    cbn [default mapM fmap option_fmap option_map list_to_set foldr].
    f_equal. apply filter_all. set_solver. }
  assert (seed (length texts) nb (load_checkpoint (path_checkpoint fresh))
          = Seeded (replicate (length texts) JNull) ∅ (seq 0 nb)) as Hseed' by done.
  assert (Forall (λ b, b < nb) order1) as Hv1.
  { rewrite Horder1. apply Forall_seq. intros; lia. }
  assert (Forall (λ b, b < nb) order2) as Hv2.
  { rewrite Horder2. apply Forall_seq. intros; lia. }
  split; [by eapply pending_of_eq|].
  unfold r, r'.
  rewrite (main_async_dispatch _ _ _ _ _ _ _ _ _ _ _ _ None Hin Hcol Hnb Hseed).
  rewrite (main_async_dispatch _ _ _ _ fresh _ _ _ _ _ _ _ None Hin Hcol Hnb Hseed').
  cbn [fresh path_input path_checkpoint path_intermediate
       path_output_parquet path_output_csv].
  set (st := foldl _ (State labels0 _ _ _ _ _) order1).
  set (st' := foldl _ (State (replicate _ _) _ _ _ _ _) order2).
  assert (all_labels st = all_labels st') as Htable.
  { apply (table_ext BATCH_SIZE texts nb Hup Hlow); [done| | |].
    - by apply (serial_length _ _ _ _ _ nb).
    - apply (serial_length _ _ _ _ _ nb); [done..|]. apply length_replicate.
    - intros b Hb. unfold st, st'.
      rewrite !(serial_seg _ _ _ _ _ nb) by (done || apply length_replicate).
      rewrite !decide_True; [done| |].
      + rewrite Horder2. apply elem_of_seq. lia.
      + rewrite Horder1. apply elem_of_seq. lia. }
  by apply final_save_table.
Qed.

Lemma checkpoint_without_completed_set_witness :
  let checkpoint :=
    JObj [("last_batch", JNum 0); ("labels", JArr [JNum 7; JNull; JNull])] in
  let fs := Files (Some demo_df) (FileText (Some checkpoint)) None None None in
  pending_of 2 "cleaned_text" fs = Some [0; 1] ∧
  path_output_parquet
    (disk (main_async (pandas := lenient_pandas) 2 "cleaned_text" demo_service demo_clock fs [1;
        0] None))
  = path_output_parquet
      (disk (main_async (pandas := lenient_pandas) 2 "cleaned_text" demo_service demo_clock
          demo_files [0; 1] None)).
Proof.
  intros checkpoint fs.
  destruct (checkpoint_without_completed_set (pandas := lenient_pandas) 2 "cleaned_text"
      demo_service
              demo_clock demo_clock fs demo_df demo_texts 2
              [("last_batch", JNum 0); ("labels", JArr [JNum 7; JNull; JNull])]
              [JNum 7; JNull; JNull] [1; 0] [0; 1])
    as (Hpending & _ & Hout & _);
    [reflexivity|reflexivity|reflexivity|reflexivity|reflexivity|reflexivity|
     reflexivity|apply Permutation_swap|reflexivity|].
  split; [exact Hpending|exact Hout].
Defined.
